(** * ipymd: nearest-neighbour analysis

    A shallow embedding of [ipymd/atom_analysis/nearest_neighbour.py] and of
    the class of [ipymd/atom_manipulation.py], followed by the properties of
    the common neighbour analysis (CNA), of the classifier, of the
    coordination count, of bond guessing and of the manipulation of tables.

    Conventions of the embedding:
    - Python integers (atom ids, counts, repetitions) are [Z];
    - coordinates, distances and the fitting [accuracy] of the classifier
      are binary64 floats ([PrimFloat.float]), with [infinity] as the "no
      neighbour" sentinel of the spatial index; an integer becomes a float
      by one rounding to the nearest, as Python and numpy convert it;
    - a [dict] is a [gmap], a [set] a [gset], a [Counter] a [gmap] into the
      counts with [0] for a missing key;
    - a raised exception is the [Raise] case of [result]; what is printed
      is appended to an explicit output;
    - a call binds its arguments to the parameters of the function before
      the body runs, and raises [TypeError] when they do not fit. *)

From Equations Require Import Equations.
From stdpp Require Import gmap strings list fin_maps sorting pretty.
From Stdlib Require Import ZArith QArith Lia Floats.

Set Warnings "-inexact-float".
Local Open Scope Z_scope.

(** * Part I: the embedding *)

(** ** Exceptions and output *)

(** The key of a failed dictionary lookup: an atom id or a type label. *)
Inductive key : Type :=
| IntKey (id : Z)
| StrKey (label : string).

Inductive exn : Type :=
| AssertionError
| IndexError
| KeyError (k : key)
| OverflowError
| TypeError
| ValueError (msg : string).

Inductive result (A : Type) : Type :=
| Ok (a : A)
| Raise (e : exn).
Arguments Ok {A} a.
Arguments Raise {A} e.

#[export] Instance result_ret : MRet result := λ A a, Ok a.
#[export] Instance result_bind : MBind result := λ A B f m,
  match m with
  | Ok a => f a
  | Raise e => Raise e
  end.
#[export] Instance result_fmap : FMap result := λ A B f m,
  match m with
  | Ok a => Ok (f a)
  | Raise e => Raise e
  end.

(** [d[k]] on a dictionary keyed by atom ids. *)
Definition getitem {A} (d : gmap Z A) (k : Z) : result A :=
  match d !! k with
  | Some a => Ok a
  | None => Raise (KeyError (IntKey k))
  end.

(** What a call writes to the notebook cell. *)
Inductive event : Type :=
| Print (line : string)
| ClearOutput.

(** A computation that may print and may raise: it maps the output so far
    to its outcome and the output after it. *)
Definition io (A : Type) : Type := list event → result A * list event.

#[export] Instance io_ret : MRet io := λ A a out, (Ok a, out).
#[export] Instance io_bind : MBind io := λ A B f m out,
  match m out with
  | (Ok a, out') => f a out'
  | (Raise e, out') => (Raise e, out')
  end.

Definition print (line : string) : io unit := λ out, (Ok tt, out ++ [Print line]).
Definition clear_output : io unit := λ out, (Ok tt, out ++ [ClearOutput]).
Definition lift {A} (r : result A) : io A := λ out, (r, out).

(** [if flag: body] *)
Definition when (flag : bool) (body : io unit) : io unit :=
  if flag then body else mret tt.

(** A [for] loop with an accumulator, in [result] and in [io]. *)
Fixpoint for_result {A S} (l : list A) (body : S → A → result S) (s : S)
    : result S :=
  match l with
  | [] => Ok s
  | a :: l => s' ← body s a; for_result l body s'
  end.

Fixpoint for_io {A S} (l : list A) (body : S → A → io S) (s : S) : io S :=
  match l with
  | [] => mret s
  | a :: l => s' ← body s a; for_io l body s'
  end.

(** ** Calls

    A call gives positional arguments and keyword arguments.  Python binds
    them to the parameters of the function before its body runs, and raises
    [TypeError] when there are more positional arguments than parameters,
    when a keyword names no parameter or a parameter that a positional
    argument has bound already, and when a parameter without a default value
    is left unbound.  Which of these happens depends on the number of the
    positional arguments and on the set of the keywords alone. *)

(** The parameters of a method after [self], and how many of the last of
    them have a default value. *)
Record parameters : Type := Parameters {
  parameter_names : list string;
  with_default : nat
}.

Definition bind_arguments (method : parameters) (positional : nat)
    (keywords : gset string) : result unit :=
  let names := parameter_names method in
  let required := take (length names - with_default method) names in
  let bound := take positional names in
  if bool_decide (positional ≤ length names)%nat
     && bool_decide (set_Forall (λ k, k ∈ names ∧ k ∉ bound) keywords)
     && bool_decide (Forall (λ p, p ∈ bound ∨ p ∈ keywords) required)
  then Ok tt
  else Raise TypeError.

(** ** Integers and floats *)

(** [float(n)] for a Python integer, also where an integer meets a float in
    a product or a sum: the nearest binary64 number, ties to even, and
    [OverflowError] beyond the range of the floats. *)
Definition float_of_int (n : Z) : result float :=
  match binary_normalize prec emax n 0 false with
  | S754_infinity _ => Raise OverflowError
  | f => Ok (SF2Prim f)
  end.

(** The comparison of a float with a Python integer.  Python compares the
    two values exactly and does not convert the integer: a finite float is
    [m * 2^e] for integers [m] and [e]. *)
Definition float_compare_int (a : float) (n : Z) : option comparison :=
  match Prim2SF a with
  | S754_nan => None
  | S754_infinity s => Some (if s then Lt else Gt)
  | S754_zero _ => Some (0 ?= n)
  | S754_finite s m e =>
      let m := if s then Zneg m else Zpos m in
      Some (if decide (0 ≤ e) then m * 2 ^ e ?= n else m ?= n * 2 ^ (- e))
  end.

(** [a <= n] and [n <= a] *)
Definition float_le_int (a : float) (n : Z) : bool :=
  match float_compare_int a n with
  | Some Lt | Some Eq => true
  | _ => false
  end.

Definition int_le_float (n : Z) (a : float) : bool :=
  match float_compare_int a n with
  | Some Gt | Some Eq => true
  | _ => false
  end.

(** ** The bond graph of the shared neighbours

    A [dict] from a node to the [list] of its neighbours. *)

(** [tree.setdefault(k, []).append(v)] *)
Definition setdefault_append (k v : Z) (tree : gmap Z (list Z))
    : gmap Z (list Z) :=
  <[k := default [] (tree !! k) ++ [v]]> tree.

(** [_createTreeFromEdges(edges)]: every edge is entered in both directions. *)
Definition _createTreeFromEdges (edges : list (Z * Z)) : gmap Z (list Z) :=
  fold_left (λ tree '(v1, v2),
               setdefault_append v2 v1 (setdefault_append v1 v2 tree))
            edges ∅.

(** The number of adjacency entries of a map: the sum of the lengths of its
    lists.  It is the termination measure of [_longest_path]. *)
Definition total_entries (tree : gmap Z (list Z)) : nat :=
  map_fold (λ _ nodes acc, (length nodes + acc)%nat) 0%nat tree.

(** A value together with the proof that it is the one inspected: keeps
    [tree !! start = Some nodes] in scope of the recursive calls. *)
Definition inspect {A} (x : A) : {y : A | x = y} := exist _ x eq_refl.

(** One turn of [for node in nodes] in [_longest_path], given the recursive
    call [rec node] on the emptied copy of the map. *)
Definition visit (rec : Z → list Z) (lastnode : option Z)
    (path : list Z) (node : Z) : list Z :=
  if decide (Some node = lastnode) then path
  else
    let new_path := rec node in
    if decide (length path < length new_path)%nat then new_path else path.

(** [_longest_path(start, tree, lastnode)].  The recursive calls receive the
    copy [new_tree] of the map in which the list of [start] is emptied.  They
    happen only when that list is not empty, hence the separate clause for
    the empty list, where the loop does nothing and [path] is [[start]]: it
    is what lets [total_entries] decrease at every call. *)
Equations? _longest_path (start : Z) (tree : gmap Z (list Z))
    (lastnode : option Z) : list Z by wf (total_entries tree) lt :=
  _longest_path start tree lastnode with inspect (tree !! start) := {
    | exist _ None _ => [];
    | exist _ (Some nil) _ => [start];
    | exist _ (Some (cons node nodes)) Hnodes =>
        let new_tree := <[start := []]> tree in
        fold_left
          (visit (λ n, _longest_path n new_tree (Some start)) lastnode)
          (node :: nodes) [] ++ [start] }.
Proof.
  subst new_tree. unfold total_entries.
  rewrite <- (insert_delete_id tree start _ Hnodes) at 2.
  rewrite <- (insert_delete_eq tree start []).
  rewrite !map_fold_insert_L
    by first [apply lookup_delete_eq | intros; lia].
  simpl. lia.
Qed.

(** [max(l)] for a non-empty list of integers. *)
Definition py_max (l : list Z) : Z :=
  match l with
  | [] => 0
  | x :: l => fold_left Z.max l x
  end.

(** The keys of a dictionary, in the order the iteration yields them. *)
Definition iterkeys {A} (d : gmap Z A) : list Z := (map_to_list d).*1.

(** The third component of a signature, from the list of bonds between the
    shared neighbours:
<<
    tree = _createTreeFromEdges(nn_bonds)
    chain_lengths = [0]
    for node in tree.iterkeys():
        chain_lengths.append(len(_longest_path(node, tree))-1)
    l = max(chain_lengths)
>> *)
Definition longest_chain (nn_bonds : list (Z * Z)) : Z :=
  let tree := _createTreeFromEdges nn_bonds in
  let chain_lengths :=
    fold_left (λ chain_lengths node,
                 chain_lengths
                 ++ [Z.of_nat (length (_longest_path node tree None)) - 1])
              (iterkeys tree) [0] in
  py_max chain_lengths.

(** ** Atoms and the spatial index *)

(** A point, as a row of [df[['x','y','z']].values]. *)
Definition point : Type := float * float * float.

#[export] Instance float_inhabited : Inhabited float := populate 0%float.

(** A row of the atom table of [nearest_neighbour.py]. *)
Record atom : Type := Atom {
  x : float;
  y : float;
  z : float;
  type : string;
  color : string
}.

Definition xyz (a : atom) : point := (x a, y a, z a).

(** The lattice vectors [a], [b], [c] of the meta data. *)
Definition lattice_meta : Type := point * point * point.

(** One row of the answer to [tree.query(points, k, distance_upper_bound)]:
    the distances and the ids of the points found. *)
Definition knn_row : Type := list float * list Z.

(** [np.logical_and(dists > min_dist, dists < np.inf)] at one entry. *)
Definition neighbour_mask (min_dist d : float) : bool :=
  (min_dist <? d)%float && (d <? infinity)%float.

(** [a[mask]] *)
Definition select {A} (mask : list bool) (a : list A) : list A :=
  (List.filter fst (zip mask a)).*2.

(** [np.count_nonzero(mask)] *)
Definition count_nonzero (mask : list bool) : Z :=
  Z.of_nat (length (List.filter id mask)).

(** ** The signature of a pair of neighbours *)

(** [sorted((a, b))] *)
Definition sorted_pair (a b : Z) : Z * Z := (Z.min a b, Z.max a b).

(** [set(nn_ids[nn]).intersection(nns)] *)
Definition common_neighbours (nn_ids : gmap Z (list Z)) (nns : list Z)
    (nn : Z) : result (gset Z) :=
  ids ← getitem nn_ids nn;
  mret (list_to_set ids ∩ list_to_set nns).

(** The bonds between the shared neighbours:
<<
    nn_bonds = []
    for common_nn in common_nns:
        for nn_bond in set(nn_ids[common_nn]).intersection(common_nns):
            if sorted((common_nn, nn_bond)) not in nn_bonds:
                nn_bonds.append(sorted((common_nn, nn_bond)))
>> *)
Definition add_bond (common_nn : Z) (nn_bonds : list (Z * Z)) (nn_bond : Z)
    : list (Z * Z) :=
  if decide (sorted_pair common_nn nn_bond ∈ nn_bonds) then nn_bonds
  else nn_bonds ++ [sorted_pair common_nn nn_bond].

Definition neighbour_bonds (nn_ids : gmap Z (list Z)) (common_nns : gset Z)
    : result (list (Z * Z)) :=
  for_result (elements common_nns)
    (λ nn_bonds common_nn,
       ids ← getitem nn_ids common_nn;
       mret (fold_left (add_bond common_nn)
                       (elements (list_to_set ids ∩ common_nns)) nn_bonds))
    [].

(** The triple [(j, k, l)] of the neighbour [nn] of an atom whose
    neighbours are [nns]. *)
Definition signature (nn_ids : gmap Z (list Z)) (nns : list Z) (nn : Z)
    : result (Z * Z * Z) :=
  common_nns ← common_neighbours nn_ids nns nn;
  let j := Z.of_nat (size common_nns) in
  nn_bonds ← neighbour_bonds nn_ids common_nns;
  let k := Z.of_nat (length nn_bonds) in
  let l := longest_chain nn_bonds in
  mret (j, k, l).

(** ['{0},{1},{2}'.format(j,k,l)] *)
Definition format_signature (jkl : Z * Z * Z) : string :=
  let '(j, k, l) := jkl in
  pretty j +:+ "," +:+ pretty k +:+ "," +:+ pretty l.

(** [Counter(keys)] and [counter[key]]. *)
Definition Counter (keys : list string) : gmap string Z :=
  fold_left (λ counter key, <[key := default 0 (counter !! key) + 1]> counter)
            keys ∅.

Definition count (counter : gmap string Z) (key : string) : Z :=
  default 0 (counter !! key).

(** [c1 + c2] on counters: the counts are added and only the positive ones
    are kept. *)
Definition counter_add (c1 c2 : gmap string Z) : gmap string Z :=
  merge (λ n1 n2,
           match n1, n2 with
           | None, None => None
           | _, _ =>
               let newcount := default 0 n1 + default 0 n2 in
               if decide (0 < newcount) then Some newcount else None
           end)
        c1 c2.

(** [sum(cnas, Counter())] *)
Definition sum_counters (cnas : list (gmap string Z)) : gmap string Z :=
  fold_left counter_add cnas ∅.

(** The neighbour dictionary, from the rows of the self-query:
<<
    nn_ids = {}
    for dists,ids in zip(all_dists,all_ids):
        mask = np.logical_and(dists>0.01, dists<np.inf)
        # assume first id is of that atom, i.e. dists[0]==0
        assert dists[0]==0, dists
        nn_ids[ids[0]] = ids[mask]
>> *)
Definition record_neighbours (nn_ids : gmap Z (list Z)) (row : knn_row)
    : result (gmap Z (list Z)) :=
  let '(dists, ids) := row in
  let mask := neighbour_mask 0.01 <$> dists in
  match dists with
  | [] => Raise IndexError
  | d0 :: _ =>
      if (d0 =? 0)%float then
        match ids with
        | [] => Raise IndexError
        | id0 :: _ => Ok (<[id0 := select mask ids]> nn_ids)
        end
      else Raise AssertionError
  end.

Definition neighbour_dictionary (rows : list knn_row)
    : result (gmap Z (list Z)) :=
  for_result rows record_neighbours ∅.

(** ** The classifier *)

(** [_equala(i, j, accuracy)]: [j*accuracy <= i <= j+j*(1-accuracy)], for
    integers [i] and [j] and a float [accuracy].  The products, the
    difference and the sum are those of binary64, on the float of [j]; the
    two comparisons are of a float with the integer [i]. *)
Definition _equala (i j : Z) (accuracy : float) : result bool :=
  j ← float_of_int j;
  Ok (float_le_int (j * accuracy) i
      && int_le_float i (j + j * (1 - accuracy)))%float.

(** [a and b], where [b] is evaluated only when [a] holds. *)
Definition and_then (a b : result bool) : result bool :=
  holds ← a; if holds : bool then b else Ok false.

(** The [if]/[elif] chain of [cna_categories] on the counter of one atom. *)
Definition category (counter : gmap string Z) (accuracy : float)
    : result string :=
  let equala key j := _equala (count counter key) j accuracy in
  hcp ← and_then (equala "4,2,1" 6) (equala "4,2,2" 6);
  if hcp : bool then Ok "HCP" else
  fcc ← equala "4,2,1" 12;
  if fcc : bool then Ok "FCC" else
  bcc ← and_then (equala "6,6,6" 8) (equala "4,4,4" 6);
  if bcc : bool then Ok "BCC" else
  diamond ← and_then (equala "5,4,3" 12) (equala "6,6,3" 4);
  if diamond : bool then Ok "Diamond" else
  icosahedral ← equala "5,5,5" 12;
  if icosahedral : bool then Ok "Icosahedral" else Ok "Other".

(** ** Bonds and vacancies as rows of the tables returned *)

Record bond : Type := Bond {
  bond_start : Z;
  bond_end : Z;
  bond_length : float;
  bond_radius : float;
  bond_color_start : string;
  bond_color_end : string;
  bond_transparency : float
}.

Record site : Type := Site {
  site_type : string;
  site_x : float;
  site_y : float;
  site_z : float;
  site_radius : float;
  site_color : string;
  site_transparency : float
}.

Definition site_xyz (s : site) : point := (site_x s, site_y s, site_z s).

(** [range(n)] *)
Definition range (n : nat) : list Z := Z.of_nat <$> seq 0 n.

(** [a[i]] on a sequence, for an index that is not negative. *)
Definition item {A} (a : list A) (i : Z) : result A :=
  if decide (i < 0) then Raise IndexError
  else match a !! Z.to_nat i with
       | Some v => Ok v
       | None => Raise IndexError
       end.

(** [covalent_radii[type]] *)
Definition radius_of (covalent_radii : gmap string float) (t : string)
    : result float :=
  match covalent_radii !! t with
  | Some r => Ok r
  | None => Raise (KeyError (StrKey t))
  end.

(** [((p - q)**2).sum()] *)
Definition squared_distance (p q : point) : float :=
  let '(px, py, pz) := p in
  let '(qx, qy, qz) := q in
  ((px - qx) * (px - qx) + (py - qy) * (py - qy) + (pz - qz) * (pz - qz))%float.

(** [np.isinf(d)] *)
Definition isinf (d : float) : bool := (PrimFloat.abs d =? infinity)%float.

(** [sorted(d)] on the keys of a dictionary, and the values in that order. *)
Definition sorted_keys {A} (d : gmap Z A) : list Z :=
  merge_sort Z.le (iterkeys d).

Definition values_by_key {A} (d : gmap Z A) : list A :=
  omap (λ key, d !! key) (sorted_keys d).

(** [df[column] = values]: pandas refuses a list of another length. *)
Definition set_column {A B} (df : list A) (values : list B)
    : result (list (A * B)) :=
  if decide (length values = length df) then Ok (zip df values)
  else Raise (ValueError "Length of values does not match length of index").

(** [df.drop(labels)] on a table with its index. *)
Definition drop_rows {A} (labels : list Z) (df : list (Z * A))
    : list (Z * A) :=
  List.filter (λ row, bool_decide (row.1 ∉ labels)) df.

(** ** [atom_manipulation.py]: the class [Atom_Manipulation] *)

Module Atom_Manipulation.

(** A row of [atom_df], with the columns [xs], [ys], [zs] and [type]. *)
Record atom : Type := Atom {
  xs : float;
  ys : float;
  zs : float;
  type : string
}.

(** The attributes of an instance. *)
Record t : Type := Make {
  _atom_df_new : list atom;
  _atom_df_old : option (list atom);
  _original_atom_df : list atom
}.

(** [def __init__(self, atom_df)] and
    [def repeat_cell(self, vectors, repetitions=((0,1),(0,1),(0,1)))] *)
Definition init_parameters : parameters := Parameters ["atom_df"] 0.

Definition repeat_cell_parameters : parameters :=
  Parameters ["vectors"; "repetitions"] 1.

(** [__init__(self, atom_df)] *)
Definition init (atom_df : list atom) : t :=
  {| _atom_df_new := atom_df;
     _atom_df_old := None;
     _original_atom_df := atom_df |}.

(** The property [df] and the property [_atom_df] with its setter. *)
Definition df (self : t) : list atom := _atom_df_new self.

Definition _atom_df (self : t) : list atom := _atom_df_new self.

Definition set_atom_df (self : t) (atom_df : list atom) : t :=
  {| _atom_df_new := atom_df;
     _atom_df_old := Some (_atom_df_new self);
     _original_atom_df := _original_atom_df self |}.

(** [atom_copy[['xs','ys','zs']] + i*vectors[0] + j*vectors[1] + k*vectors[2]]
    on one row, for the floats of [i], [j] and [k]; [vectors] is an array of
    three rows of floats. *)
Definition translate (vectors : point * point * point) (i j k : float)
    (a : atom) : atom :=
  let '((ax, ay, az), (bx, by_, bz), (cx, cy, cz)) := vectors in
  {| xs := xs a + i * ax + j * bx + k * cx;
     ys := ys a + i * ay + j * by_ + k * cy;
     zs := zs a + i * az + j * bz + k * cz;
     type := type a |}%float.

(** [range(lo, hi+1)] *)
Definition inclusive_range (bounds : Z * Z) : list Z :=
  seqZ bounds.1 (bounds.2 + 1 - bounds.1).

(** The body of the innermost loop of [repeat_cell]: a translated copy of
    the table is appended to [dfs]. *)
Definition repeat_copy (self : t) (vectors : point * point * point)
    (i j k : Z) (dfs : list (list atom)) : result (list (list atom)) :=
  i ← float_of_int i;
  j ← float_of_int j;
  k ← float_of_int k;
  Ok (dfs ++ [translate vectors i j k <$> _atom_df self]).

(** [pd.concat(dfs)], which refuses an empty list. *)
Definition concat (dfs : list (list atom)) : result (list atom) :=
  match dfs with
  | [] => Raise (ValueError "No objects to concatenate")
  | _ :: _ => Ok (mjoin dfs)
  end.

(** [repeat_cell(self, vectors, repetitions)]: the copies are appended to
    [dfs] in the order of the three nested loops and concatenated. *)
Definition repeat_cell (self : t) (vectors : point * point * point)
    (repetitions : (Z * Z) * (Z * Z) * (Z * Z)) : result t :=
  let '(ri, rj, rk) := repetitions in
  dfs ← for_result (inclusive_range ri)
          (λ dfs i,
             for_result (inclusive_range rj)
               (λ dfs j,
                  for_result (inclusive_range rk)
                    (λ dfs k, repeat_copy self vectors i j k dfs)
                    dfs)
               dfs)
          [];
  atom_df ← concat dfs;
  Ok (set_atom_df self atom_df).

(** A call [self.repeat_cell(...)] with [positional] positional arguments
    and the keyword arguments [keywords]; [vectors] and [repetitions] are
    the values of the two parameters when the call binds. *)
Definition call_repeat_cell (self : t) (positional : nat)
    (keywords : gset string) (vectors : point * point * point)
    (repetitions : (Z * Z) * (Z * Z) * (Z * Z)) : result t :=
  bind_arguments repeat_cell_parameters positional keywords;;
  repeat_cell self vectors repetitions.

(** [undo_last(self)]: one step back, when there is one. *)
Definition undo_last (self : t) : t :=
  match _atom_df_old self with
  | Some atom_df_old =>
      {| _atom_df_new := atom_df_old;
         _atom_df_old := None;
         _original_atom_df := _original_atom_df self |}
  | None => self
  end.

(** [revert_to_original(self)] *)
Definition revert_to_original (self : t) : t :=
  set_atom_df self (_original_atom_df self).

(** A column of the table, named by [vtype]: how to read a cell of a row
    and how to write it. *)
Record column (V : Type) : Type := Column {
  cell : atom → V;
  with_cell : V → atom → atom
}.
Arguments Column {V} cell with_cell.
Arguments cell {V} c a.
Arguments with_cell {V} c v a.

(** The column ['type'], the default of [vtype]. *)
Definition type_column : column string :=
  Column type (λ t a, {| xs := xs a; ys := ys a; zs := zs a; type := t |}).

(** [change_variables(self, map_dict, vtype)]: the table is changed in
    place, [self._atom_df.replace({vtype:map_dict}, inplace=True)]; the
    setter of [_atom_df] is not called. *)
Definition change_variables {V} `{Countable V} (map_dict : gmap V V)
    (vtype : column V) (self : t) : t :=
  {| _atom_df_new :=
       (λ a, with_cell vtype
               (default (cell vtype a) (map_dict !! cell vtype a)) a)
         <$> _atom_df_new self;
     _atom_df_old := _atom_df_old self;
     _original_atom_df := _original_atom_df self |}.

(** The argument [values] of [filter_variables]: one value, an [int], a
    [float] or a string, or a list of values. *)
Inductive values (V : Type) : Type :=
| Single (v : V)
| Many (vs : list V).
Arguments Single {V} v.
Arguments Many {V} vs.

(** [filter_variables(self, values, vtype)] *)
Definition filter_variables {V} `{EqDecision V} (vals : values V)
    (vtype : column V) (self : t) : t :=
  let vals :=
    match vals with
    | Single v => [v]
    | Many vs => vs
    end in
  set_atom_df self
    (List.filter (λ a, bool_decide (cell vtype a ∈ vals)) (_atom_df self)).

(** [slice_x(self, minval, maxval)], and the same on the other axes: each
    bound that is given replaces the table by its rows within the bound. *)
Definition slice (coordinate : atom → float) (minval maxval : option float)
    (self : t) : t :=
  let self :=
    match minval with
    | Some minval =>
        set_atom_df self
          (List.filter (λ a, (minval <=? coordinate a)%float) (_atom_df self))
    | None => self
    end in
  match maxval with
  | Some maxval =>
      set_atom_df self
        (List.filter (λ a, (coordinate a <=? maxval)%float) (_atom_df self))
  | None => self
  end.

Definition slice_x := slice xs.
Definition slice_y := slice ys.
Definition slice_z := slice zs.

End Atom_Manipulation.

(** ** The analyses of [nearest_neighbour.py]

    The spatial index is scipy's [cKDTree], numpy builds the grid of
    candidate sites, and the default radii come from [ipymd.shared]; none of
    them is part of the module, and they are parameters here. *)

Section NearestNeighbour.

(** [cKDTree(points, leafsize)] *)
Variable kdtree : Type.
Variable cKDTree : list point → Z → kdtree.

(** [tree.query(points, k, distance_upper_bound, n_jobs)]: a row per point. *)
Variable query : kdtree → list point → Z → float → Z → list knn_row.

(** [tree.query_pairs(r)] *)
Variable query_pairs : kdtree → float → list (Z * Z).

(** The table that the periodic images of a table are written to be.  The
    analyses ask for it with
<<
    repeat = Atom_Manipulation(df, repeat_meta)
    repeat.repeat_cell((-1,1),(-1,1),(-1,1), original_first=True)
    lattice_df = repeat.df
>>
    which are two positional arguments for the one parameter of [__init__]
    and three, with a keyword, for the two parameters of [repeat_cell]: the
    calls do not bind, and no run reaches the table. *)
Variable periodic_images : bool → list atom → lattice_meta → list atom.

(** [shared.atom_data().RCov.to_dict()] *)
Variable atom_data_RCov : gmap string float.

(** [column.min()] and [column.max()], and
    [np.mgrid[xmin:xmax:res, ymin:ymax:res, zmin:zmax:res].reshape(3,-1).T],
    which raises where numpy cannot size the grid. *)
Variable series_min series_max : list float → float.
Variable mgrid : float * float → float * float → float * float → float
                 → result (list point).

(** [Atom_Manipulation(df, repeat_meta)] *)
Definition instantiate : result unit :=
  bind_arguments Atom_Manipulation.init_parameters 2 ∅.

(** [repeat.repeat_cell((-1,1),(-1,1),(-1,1))], with the keyword
    [original_first] or without it, and [repeat.df] *)
Definition repeated (keywords : gset string) (df : list atom)
    (repeat_meta : lattice_meta) : result (list atom) :=
  bind_arguments Atom_Manipulation.repeat_cell_parameters 3 keywords;;
  Ok (periodic_images (bool_decide ("original_first" ∈ keywords)) df
                      repeat_meta).

(** The signatures of the neighbours [nns] of one atom, as strings. *)
Definition signatures (nn_ids : gmap Z (list Z)) (nns : list Z)
    : result (list string) :=
  for_result nns
    (λ jkls nn,
       jkl ← signature nn_ids nns nn;
       mret (jkls ++ [format_signature jkl]))
    [].

(** One turn of [for lid, nns in nn_ids.iteritems()]. *)
Definition assess (nn_ids : gmap Z (list Z)) (max_id : Z)
    (ipython_progress : bool) (jkls : gmap Z (gmap string Z))
    (entry : Z * list Z) : io (gmap Z (gmap string Z)) :=
  let '(lid, nns) := entry in
  if decide (max_id < lid) then mret jkls
  else
    when ipython_progress
      (clear_output;;
       print ("assessing nearest neighbours: " +:+ pretty lid
              +:+ " of " +:+ pretty max_id));;
    jkls_lid ← lift (signatures nn_ids nns);
    mret (<[lid := Counter jkls_lid]> jkls).

(** [common_neighbour_analysis]: the atoms with their new column [cna]. *)
Definition common_neighbour_analysis (atoms_df : list atom)
    (upper_bound : float) (max_neighbours : Z)
    (repeat_meta : option lattice_meta) (leafsize : Z)
    (ipython_progress : bool) : io (list (atom * gmap string Z)) :=
  let df := atoms_df in
  let max_id := Z.of_nat (length df) - 1 in
  lattice_df ← lift (match repeat_meta with
                     | Some meta =>
                         instantiate;; repeated {["original_first"]} df meta
                     | None => Ok df
                     end);
  when ipython_progress (print "creating nearest neighbours dictionary");;
  let lattice_tree := cKDTree (xyz <$> lattice_df) leafsize in
  let rows :=
    query lattice_tree (xyz <$> lattice_df) (max_neighbours + 1)
          upper_bound 1 in
  nn_ids ← lift (neighbour_dictionary rows);
  jkls ← for_io (map_to_list nn_ids) (assess nn_ids max_id ipython_progress) ∅;
  df ← lift (set_column df (values_by_key jkls));
  when ipython_progress clear_output;;
  mret df.

(** [cna_categories]: the column [cna] replaced by the label of each atom;
    [atype] holds one label for each row. *)
Definition cna_categories (atoms_df : list atom) (accuracy : float)
    (upper_bound : float) (max_neighbours : Z)
    (repeat_meta : option lattice_meta) (leafsize : Z)
    (ipython_progress : bool) : io (list (atom * string)) :=
  df ← common_neighbour_analysis atoms_df upper_bound max_neighbours
         repeat_meta leafsize ipython_progress;
  let cnas := df.*2 in
  atype ← lift (for_result cnas
                  (λ atype counter,
                     label ← category counter accuracy;
                     Ok (atype ++ [label]))
                  []);
  mret (zip df.*1 atype).

(** [cna_sum]: the counter of the signatures of all the atoms. *)
Definition cna_sum (atoms_df : list atom) (upper_bound : float)
    (max_neighbours : Z) (repeat_meta : option lattice_meta) (leafsize : Z)
    (ipython_progress : bool) : io (gmap string Z) :=
  df ← common_neighbour_analysis atoms_df upper_bound max_neighbours
         repeat_meta leafsize ipython_progress;
  let cnas := df.*2 in
  mret (sum_counters cnas).

(** [coordination]: the coordination number of each atom of
    [coord_atoms_df] in the lattice of [lattice_atoms_df].  The instance is
    made whether [repeat_meta] is given or not. *)
Definition coordination (coord_atoms_df lattice_atoms_df : list atom)
    (max_dist : float) (max_coord : Z) (repeat_meta : option lattice_meta)
    (min_dist : float) (leafsize : Z) : result (list Z) :=
  instantiate;;
  lattice_df ← match repeat_meta with
               | Some meta => repeated ∅ lattice_atoms_df meta
               | None => Ok lattice_atoms_df
               end;
  let lattice_tree := cKDTree (xyz <$> lattice_df) leafsize in
  let rows := query lattice_tree (xyz <$> coord_atoms_df) max_coord max_dist 1 in
  Ok ((λ row, count_nonzero (neighbour_mask min_dist <$> row.1)) <$> rows).

(** One turn of [for i,j in pairs] in [guess_bonds]. *)
Definition guess_bond (atoms : list atom) (covalent_radii : gmap string float)
    (threshold radius transparency : float) (color_arg : option string)
    (bonds : list bond) (pair : Z * Z) : result (list bond) :=
  let '(i, j) := pair in
  atom_i ← item atoms i;
  a ← radius_of covalent_radii (type atom_i);
  atom_j ← item atoms j;
  b ← radius_of covalent_radii (type atom_j);
  let rval := (a + b)%float in
  let thr_a := (rval - threshold)%float in
  let thr_b := (rval + threshold)%float in
  let thr_b2 := (thr_b * thr_b)%float in
  let dr2 := squared_distance (xyz atom_i) (xyz atom_j) in
  if (dr2 <? thr_b2)%float then
    match color_arg with
    | None =>
        mret (bonds ++ [Bond i j (PrimFloat.sqrt dr2) radius
                             (color atom_i) (color atom_j) transparency])
    | Some color =>
        mret (bonds ++ [Bond i j (PrimFloat.sqrt dr2) radius
                             color color transparency])
    end
  else mret bonds.

(** [guess_bonds]: [atoms_df] is the table with its index. *)
Definition guess_bonds (atoms_df : list (Z * atom))
    (covalent_radii : option (gmap string float))
    (threshold max_length radius transparency : float)
    (color : option string) : result (list bond) :=
  if decide (atoms_df.*1 ≠ range (length atoms_df)) then
    Raise (ValueError
             "the index for atoms_df must be in order, i.e. [0,1,2,...]")
  else
    let covalent_radii :=
      match covalent_radii with
      | None => atom_data_RCov
      | Some covalent_radii => covalent_radii
      end in
    let r_array := xyz <$> atoms_df.*2 in
    let ck := cKDTree r_array 16 in
    let pairs := query_pairs ck max_length in
    for_result pairs
      (guess_bond atoms_df.*2 covalent_radii threshold radius transparency
                  color)
      [].

(** [vacancy_identification]: the table of the vacancy sites. *)
Definition vacancy_identification (atoms_df : list atom)
    (res nn_dist : float) (repeat_meta : option lattice_meta)
    (remove_dups : bool) (color : string) (transparency radius : float)
    (type_name : string) (leafsize n_jobs : Z) (ipython_progress : bool)
    : io (list (Z * site)) :=
  let xs := (series_min (x <$> atoms_df), series_max (x <$> atoms_df)) in
  let ys := (series_min (y <$> atoms_df), series_max (y <$> atoms_df)) in
  let zs := (series_min (z <$> atoms_df), series_max (z <$> atoms_df)) in
  grid ← lift (mgrid xs ys zs res);
  lattice_df ← lift (match repeat_meta with
                     | Some meta =>
                         instantiate;;
                         repeated {["original_first"]} atoms_df meta
                     | None => Ok atoms_df
                     end);
  when ipython_progress
    (clear_output;; print "creating nearest neighbour tree");;
  let lattice_tree := cKDTree (xyz <$> lattice_df) leafsize in
  when ipython_progress
    (clear_output;; print "assessing nearest neighbours");;
  let dists := mjoin (query lattice_tree grid 1 nn_dist n_jobs).*1 in
  let vac_list :=
    omap (λ '((x, y, z), dist),
            if isinf dist then
              Some (Site type_name x y z radius color transparency)
            else None)
         (zip grid dists) in
  let df := zip (range (length vac_list)) vac_list in
  let df :=
    if remove_dups && bool_decide (0 < length df)%nat then
      let vac_tree := cKDTree (site_xyz <$> df.*2) 16 in
      let pairs := query_pairs vac_tree nn_dist in
      if bool_decide (0 < length pairs)%nat then drop_rows pairs.*1 df
      else df
    else df in
  when ipython_progress clear_output;;
  mret df.

End NearestNeighbour.

Arguments common_neighbour_analysis {kdtree}.
Arguments cna_categories {kdtree}.
Arguments cna_sum {kdtree}.
Arguments coordination {kdtree}.
Arguments guess_bonds {kdtree}.
Arguments vacancy_identification {kdtree}.

(** ** Notions of the specification *)

(** *** Walks in the bond graph of the shared neighbours

    The graph is given by its list of bonds; a bond joins its two ends in
    both directions. *)
Definition bonded (edges : list (Z * Z)) (u v : Z) : Prop :=
  (u, v) ∈ edges ∨ (v, u) ∈ edges.

Definition graph_nodes (edges : list (Z * Z)) : list Z :=
  edges.*1 ++ edges.*2.

(** [walk edges previous w]: [w] is a non-empty sequence of nodes of the
    graph, each bonded to the next, that never steps back to the node it has
    just left; [previous] is the node left before the first one, if any. *)
Fixpoint walk (edges : list (Z * Z)) (previous : option Z) (w : list Z)
    : Prop :=
  match w with
  | [] => False
  | v :: rest =>
      match rest with
      | [] => v ∈ graph_nodes edges
      | u :: _ =>
          bonded edges v u ∧ Some u ≠ previous ∧ walk edges (Some v) rest
      end
  end.

(** An unbroken chain: a walk that stops at the latest when it comes back
    to a node it has already left, so that all its nodes but the last are
    distinct. *)
Definition chain (edges : list (Z * Z)) (w : list Z) : Prop :=
  walk edges None w ∧ NoDup (removelast w).

(** The number of bonds a sequence of nodes runs through. *)
Definition edge_count (w : list Z) : Z := Z.of_nat (length w) - 1.

(** [u] is in the list of [v]. *)
Definition adjacent (tree : gmap Z (list Z)) (v u : Z) : Prop :=
  ∃ nodes, tree !! v = Some nodes ∧ u ∈ nodes.

(** The same chains, read on the adjacency map as [_longest_path] consumes
    it: the list of a node is emptied once the node is left. *)
Fixpoint unbroken (tree : gmap Z (list Z)) (lastnode : option Z)
    (w : list Z) : Prop :=
  match w with
  | [] => False
  | v :: rest =>
      match tree !! v with
      | None => False
      | Some nodes =>
          match rest with
          | [] => True
          | u :: _ =>
              u ∈ nodes ∧ Some u ≠ lastnode
              ∧ unbroken (<[v := []]> tree) (Some v) rest
          end
      end
  end.

(** *** The outcome of a computation that prints

    [returns m r]: whatever has been printed before, [m] ends with the
    outcome [r]. *)
Definition returns {A} (m : io A) (r : result A) : Prop :=
  ∀ out, (m out).1 = r.

(** The table of [common_neighbour_analysis] as a function of the rows of
    the self-query alone. *)
Definition cna_table (atoms_df : list atom) (rows : list knn_row)
    : result (list (atom * gmap string Z)) :=
  let max_id := Z.of_nat (length atoms_df) - 1 in
  nn_ids ← neighbour_dictionary rows;
  jkls ← for_result (map_to_list nn_ids)
           (λ jkls entry,
              if decide (max_id < entry.1) then mret jkls
              else
                jkls_lid ← signatures nn_ids entry.2;
                mret (<[entry.1 := Counter jkls_lid]> jkls))
           ∅;
  set_column atoms_df (values_by_key jkls).

(** *** The matching rule and the priority order of the classifier *)

(** [expected*tolerance <= count <= expected*(2-tolerance)], on the numbers
    themselves. *)
Definition spec_matches (tolerance : Q) (count expected : Z) : bool :=
  Qle_bool (inject_Z expected * tolerance) (inject_Z count)
  && Qle_bool (inject_Z count) (inject_Z expected * (2 - tolerance)).

(** The window in binary64, with its upper end as the source computes it:
    [expected*tolerance <= count <= expected + expected*(1-tolerance)], where
    every product, difference and sum is rounded to the nearest float. *)
Definition rounded_matches (tolerance : float) (count expected : Z) : bool :=
  let e := SF2Prim (binary_normalize prec emax expected 0 false) in
  (float_le_int (e * tolerance) count
   && int_le_float count (e + e * (1 - tolerance)))%float.

(** The number that a finite float stands for, [m * 2^e]; [0] for the
    others. *)
Definition Q_of_float (a : float) : Q :=
  match Prim2SF a with
  | S754_finite s m e =>
      (inject_Z (if s then Zneg m else Zpos m) * Qpower 2 e)%Q
  | _ => 0%Q
  end.

(** The rules, in their order of priority, for a matching rule. *)
Definition spec_rules (matches : Z → Z → bool) (counter : gmap string Z)
    : list (string * bool) :=
  let matches key expected := matches (count counter key) expected in
  [ ("HCP", matches "4,2,1" 6 && matches "4,2,2" 6);
    ("FCC", matches "4,2,1" 12);
    ("BCC", matches "6,6,6" 8 && matches "4,4,4" 6);
    ("Diamond", matches "5,4,3" 12 && matches "6,6,3" 4);
    ("Icosahedral", matches "5,5,5" 12) ].

(** The first label whose rule holds, ["Other"] when none does. *)
Fixpoint spec_first_match (rules : list (string * bool)) : string :=
  match rules with
  | [] => "Other"
  | (label, holds) :: rules => if holds then label else spec_first_match rules
  end.

(** *** A brute-force spatial index

    The examples run the analyses on an index that compares every pair of
    points.  It stands for no contract of scipy's index, which prunes with
    its own arithmetic and may differ at the bound itself. *)

Definition distance (p q : point) : float :=
  PrimFloat.sqrt (squared_distance p q).

Definition float_le (a b : float) : Prop := (a <=? b)%float = true.

#[export] Instance float_le_dec : RelDecision float_le :=
  λ a b, decide ((a <=? b)%float = true).

(** The distances from [p] to the lattice points, nearest first. *)
Definition distances_from (lattice : list point) (p : point) : list float :=
  merge_sort float_le (distance p <$> lattice).

(** The distances of a row of the brute-force query: for each of the [k]
    nearest points its distance when that is below the bound, and the
    sentinel [infinity] otherwise, also where the lattice has fewer than [k]
    points. *)
Definition knn_distances (lattice : list point) (p : point) (k : Z)
    (distance_upper_bound : float) : list float :=
  resize (Z.to_nat k) infinity
         ((λ d, if (d <? distance_upper_bound)%float then d else infinity)
            <$> distances_from lattice p).

(** The order on the lattice points with their ids, by distance. *)
Definition nearer (a b : float * Z) : Prop := float_le a.1 b.1.

#[export] Instance nearer_dec : RelDecision nearer :=
  λ a b, decide ((a.1 <=? b.1)%float = true).

(** The ids that go with these distances; the sentinel is the number of
    lattice points. *)
Definition knn_ids (lattice : list point) (p : point) (k : Z)
    (distance_upper_bound : float) : list Z :=
  let n := Z.of_nat (length lattice) in
  resize (Z.to_nat k) n
         ((λ entry : float * Z,
             if (entry.1 <? distance_upper_bound)%float then entry.2 else n)
            <$> merge_sort nearer
                  (zip (distance p <$> lattice) (range (length lattice)))).

(** The brute-force query: the tree is the list of its points, and the
    number of jobs is ignored. *)
Definition brute_query (lattice : list point) (points : list point) (k : Z)
    (distance_upper_bound : float) (n_jobs : Z) : list knn_row :=
  (λ p, (knn_distances lattice p k distance_upper_bound,
         knn_ids lattice p k distance_upper_bound)) <$> points.

(** All pairs [(i, j)], [i < j], of points at a distance of at most [r]. *)
Definition brute_query_pairs (points : list point) (r : float)
    : list (Z * Z) :=
  let indexed := zip (range (length points)) points in
  ip ← indexed;
  jq ← indexed;
  if bool_decide (ip.1 < jq.1) && (distance ip.2 jq.2 <=? r)%float
  then [(ip.1, jq.1)] else [].

(** * Part II: properties *)

(** ** The longest unbroken chain *)

(** The equation of the source: the clause for the empty list is the loop
    that does nothing. *)
Lemma _longest_path_eq start tree lastnode :
  _longest_path start tree lastnode =
  match tree !! start with
  | None => []
  | Some nodes =>
      fold_left
        (visit (λ n, _longest_path n (<[start := []]> tree) (Some start))
               lastnode)
        nodes [] ++ [start]
  end.
Proof.
  rewrite _longest_path_equation_1.
  change (tree !! start) with (proj1_sig (inspect (tree !! start))) at 2.
  generalize (inspect (tree !! start)).
  intros [[[|node nodes]|] e]; simp _longest_path; reflexivity.
Qed.

Lemma total_entries_insert tree k nodes new :
  tree !! k = Some nodes →
  (total_entries (<[k := new]> tree) + length nodes
   = total_entries tree + length new)%nat.
Proof.
  intros Hk. unfold total_entries.
  rewrite <- (insert_delete_id tree k nodes Hk) at 2.
  rewrite <- (insert_delete_eq tree k new).
  rewrite !map_fold_insert_L
    by first [apply lookup_delete_eq | intros; lia].
  lia.
Qed.

(** Emptying a list that holds a node strictly decreases the measure. *)
Lemma emptied_decreases tree start nodes u :
  tree !! start = Some nodes → u ∈ nodes →
  (total_entries (<[start := []]> tree) < total_entries tree)%nat.
Proof.
  intros Hs Hu. destruct nodes as [|n nodes]; [by apply elem_of_nil in Hu|].
  pose proof (total_entries_insert tree start _ [] Hs) as H.
  simpl in H. lia.
Qed.

Lemma tree_entries_ind (P : gmap Z (list Z) → Prop) :
  (∀ tree,
     (∀ tree', (total_entries tree' < total_entries tree)%nat → P tree') →
     P tree) →
  ∀ tree, P tree.
Proof. intros H. apply (induction_ltof1 _ total_entries). exact H. Qed.

(** What the loop over the neighbours keeps: the first longest answer. *)
Lemma fold_visit_spec rec lastnode nodes path0 :
  let r := fold_left (visit rec lastnode) nodes path0 in
  (r = path0 ∨ ∃ n, n ∈ nodes ∧ Some n ≠ lastnode ∧ r = rec n)
  ∧ (length path0 ≤ length r)%nat
  ∧ ∀ n, n ∈ nodes → Some n ≠ lastnode → (length (rec n) ≤ length r)%nat.
Proof.
  revert path0. induction nodes as [|x nodes IH]; intros path0; simpl.
  { split; [by left|]. split; [lia|]. intros n Hn. by apply elem_of_nil in Hn. }
  destruct (IH (visit rec lastnode path0 x)) as (Hr & Hlen & Hall).
  assert (Hv : (visit rec lastnode path0 x = path0
                ∨ (Some x ≠ lastnode ∧ visit rec lastnode path0 x = rec x))
               ∧ (length path0 ≤ length (visit rec lastnode path0 x))%nat
               ∧ (Some x ≠ lastnode →
                  (length (rec x) ≤ length (visit rec lastnode path0 x))%nat)).
  { unfold visit. repeat case_decide; repeat split; auto; try lia; try done. }
  destruct Hv as (Hv1 & Hv2 & Hv3).
  split; [|split].
  - destruct Hr as [Hr|(n & Hn & Hne & Hr)].
    + rewrite Hr. destruct Hv1 as [->|[Hne ->]]; [by left|].
      right. exists x. split; [apply elem_of_cons; by left|done].
    + right. exists n. split; [apply elem_of_cons; by right|done].
  - lia.
  - intros n Hn Hne. apply elem_of_cons in Hn as [->|Hn].
    + specialize (Hv3 Hne). lia.
    + by apply Hall.
Qed.

(** No unbroken chain from [start] is longer than the path returned. *)
Lemma longest_path_complete tree : ∀ start lastnode w,
  unbroken tree lastnode (start :: w) →
  (length (start :: w) ≤ length (_longest_path start tree lastnode))%nat.
Proof.
  induction tree as [tree IH] using tree_entries_ind.
  intros start lastnode w Hw. rewrite _longest_path_eq.
  simpl in Hw. destruct (tree !! start) as [nodes|] eqn:Hs; [|done].
  rewrite length_app. simpl.
  destruct w as [|u w]; [simpl; lia|].
  destruct Hw as (Hu & Hne & Hw).
  pose proof (fold_visit_spec
    (λ n, _longest_path n (<[start:=[]]> tree) (Some start))
    lastnode nodes []) as (_ & _ & Hall).
  specialize (Hall u Hu Hne). simpl in Hall.
  apply IH in Hw; [|by eapply emptied_decreases].
  simpl in *. lia.
Qed.

(** The path returned from a key of the map is an unbroken chain from it,
    listed from its last node back to [start]. *)
Lemma longest_path_sound tree : ∀ start lastnode,
  is_Some (tree !! start) →
  ∃ w, unbroken tree lastnode (start :: w)
       ∧ _longest_path start tree lastnode = reverse (start :: w).
Proof.
  induction tree as [tree IH] using tree_entries_ind.
  intros start lastnode [nodes Hs]. rewrite _longest_path_eq, Hs.
  pose proof (fold_visit_spec
    (λ n, _longest_path n (<[start:=[]]> tree) (Some start))
    lastnode nodes []) as (Hr & _ & _).
  simpl in Hr. destruct Hr as [->|(n & Hn & Hne & ->)].
  { exists []. simpl. by rewrite Hs. }
  destruct (<[start:=[]]> tree !! n) as [ns|] eqn:Hk.
  - destruct (IH (<[start:=[]]> tree)) with (start := n)
      (lastnode := Some start) as (w & Hw & ->);
      [by eapply emptied_decreases|by eexists|].
    exists (n :: w). split.
    + simpl. rewrite Hs. done.
    + by rewrite (reverse_cons (n :: w)).
  - rewrite (_longest_path_eq n), Hk. exists []. simpl. by rewrite Hs.
Qed.

(** *** The adjacency map of a list of bonds *)

Lemma adjacent_setdefault_append k v tree a b :
  adjacent (setdefault_append k v tree) a b
  ↔ adjacent tree a b ∨ (a = k ∧ b = v).
Proof.
  unfold adjacent, setdefault_append. destruct (decide (k = a)) as [->|Hne].
  - rewrite lookup_insert_eq. split.
    + intros (nodes & [= <-] & Hb). apply elem_of_app in Hb as [Hb|Hb].
      * left. destruct (tree !! a) as [ns|]; [by exists ns|].
        by apply elem_of_nil in Hb.
      * right. apply list_elem_of_singleton in Hb. done.
    + intros [(nodes & Hn & Hb)|[_ ->]]; eexists; (split; [done|]);
        apply elem_of_app.
      * left. by rewrite Hn.
      * right. by apply list_elem_of_singleton.
  - rewrite lookup_insert_ne by done. split; [by left|].
    intros [H|[-> _]]; done.
Qed.

Lemma is_Some_setdefault_append k v tree a :
  is_Some (setdefault_append k v tree !! a) ↔ is_Some (tree !! a) ∨ a = k.
Proof.
  unfold setdefault_append. destruct (decide (k = a)) as [->|Hne].
  - rewrite lookup_insert_eq. split; [by right|by eexists].
  - rewrite lookup_insert_ne by done. split; [by left|].
    intros [H| ->]; done.
Qed.

Lemma bonded_cons v1 v2 edges a b :
  bonded ((v1, v2) :: edges) a b
  ↔ (a = v1 ∧ b = v2) ∨ (a = v2 ∧ b = v1) ∨ bonded edges a b.
Proof.
  unfold bonded. rewrite !elem_of_cons. split.
  - intros [[Heq|H]|[Heq|H]]; try (injection Heq as -> ->); auto.
  - intros [[-> ->]|[[-> ->]|[H|H]]]; auto.
Qed.

Lemma graph_nodes_cons v1 v2 edges a :
  a ∈ graph_nodes ((v1, v2) :: edges) ↔ a = v1 ∨ a = v2 ∨ a ∈ graph_nodes edges.
Proof.
  unfold graph_nodes. simpl.
  rewrite elem_of_cons, !elem_of_app, elem_of_cons. tauto.
Qed.

Lemma createTree_from tree0 edges :
  let tree :=
    fold_left (λ tree '(v1, v2),
                 setdefault_append v2 v1 (setdefault_append v1 v2 tree))
              edges tree0 in
  (∀ a b, adjacent tree a b ↔ adjacent tree0 a b ∨ bonded edges a b)
  ∧ (∀ a, is_Some (tree !! a) ↔ is_Some (tree0 !! a) ∨ a ∈ graph_nodes edges).
Proof.
  revert tree0. induction edges as [|[v1 v2] edges IH]; intros tree0; simpl.
  { split.
    - intros a b. unfold bonded. setoid_rewrite elem_of_nil. tauto.
    - intros a. unfold graph_nodes. simpl. rewrite elem_of_nil. tauto. }
  destruct (IH (setdefault_append v2 v1 (setdefault_append v1 v2 tree0)))
    as [Hadj Hdom].
  split.
  - intros a b. rewrite Hadj, !adjacent_setdefault_append, bonded_cons. tauto.
  - intros a.
    rewrite Hdom, !is_Some_setdefault_append, graph_nodes_cons. tauto.
Qed.

Lemma adjacent_createTree edges a b :
  adjacent (_createTreeFromEdges edges) a b ↔ bonded edges a b.
Proof.
  destruct (createTree_from ∅ edges) as [Hadj _].
  unfold _createTreeFromEdges. rewrite Hadj. unfold adjacent.
  setoid_rewrite lookup_empty. split; [|by right].
  intros [(? & [=] & _)|H]; done.
Qed.

Lemma is_Some_createTree edges a :
  is_Some (_createTreeFromEdges edges !! a) ↔ a ∈ graph_nodes edges.
Proof.
  destruct (createTree_from ∅ edges) as [_ Hdom].
  unfold _createTreeFromEdges. rewrite Hdom, lookup_empty.
  split; [|by right]. intros [[? [=]]|H]; done.
Qed.

(** On a map in which the lists of the nodes of [V] have been emptied, the
    chains that [_longest_path] follows are the unbroken chains of the graph
    that leave no node of [V]. *)
Lemma unbroken_iff_walk edges : ∀ w (V : list Z) tree lastnode,
  (∀ a, is_Some (tree !! a) ↔ a ∈ graph_nodes edges) →
  (∀ a b, adjacent tree a b ↔ bonded edges a b ∧ a ∉ V) →
  unbroken tree lastnode w
  ↔ walk edges lastnode w ∧ NoDup (removelast w)
    ∧ ∀ a, a ∈ removelast w → a ∉ V.
Proof.
  induction w as [|v rest IH]; intros V tree lastnode Hdom Hadj.
  { simpl. tauto. }
  destruct rest as [|u rest].
  { simpl. rewrite <- Hdom. split.
    - destruct (tree !! v); [|done]. intros _.
      split; [by eexists|]. split; [constructor|].
      intros a Ha. by apply elem_of_nil in Ha.
    - intros ([? ->] & _). done. }
  assert (Hstep : is_Some (tree !! v) →
    unbroken (<[v := []]> tree) (Some v) (u :: rest)
    ↔ walk edges (Some v) (u :: rest) ∧ NoDup (removelast (u :: rest))
      ∧ ∀ a, a ∈ removelast (u :: rest) → a ∉ v :: V).
  { intros Hv. apply IH.
    - intros a. rewrite <- Hdom. destruct (decide (v = a)) as [->|Hne].
      + rewrite lookup_insert_eq. split; [done|by eexists].
      + by rewrite lookup_insert_ne.
    - intros a b. rewrite not_elem_of_cons. split.
      + intros (nodes & Hl & Hb). destruct (decide (v = a)) as [->|Hne].
        * rewrite lookup_insert_eq in Hl. injection Hl as <-.
          by apply elem_of_nil in Hb.
        * rewrite lookup_insert_ne in Hl by done.
          assert (Hab : bonded edges a b ∧ a ∉ V)
            by (apply Hadj; by exists nodes).
          destruct Hab. repeat split; done.
      + intros (Hb & Hne & HV).
        assert (Hab : adjacent tree a b) by (by apply Hadj).
        destruct Hab as (nodes & Hl & Hb'). exists nodes.
        rewrite lookup_insert_ne by congruence. done. }
  change (removelast (v :: u :: rest)) with (v :: removelast (u :: rest)).
  rewrite NoDup_cons.
  change (walk edges lastnode (v :: u :: rest))
    with (bonded edges v u ∧ Some u ≠ lastnode
          ∧ walk edges (Some v) (u :: rest)).
  change (unbroken tree lastnode (v :: u :: rest))
    with (match tree !! v with
          | None => False
          | Some nodes =>
              u ∈ nodes ∧ Some u ≠ lastnode
              ∧ unbroken (<[v := []]> tree) (Some v) (u :: rest)
          end).
  split.
  - destruct (tree !! v) as [nodes|] eqn:Hv; [|done].
    intros (Hu & Hne & Hw). apply Hstep in Hw as (Hw & Hnd & HV); [|by eexists].
    assert (Hb : bonded edges v u ∧ v ∉ V) by (apply Hadj; by exists nodes).
    destruct Hb as [Hb HvV]. repeat split; try done.
    + intros Hin. apply HV in Hin. apply Hin, elem_of_cons. by left.
    + intros a Ha Hin. apply elem_of_cons in Ha as [->|Ha]; [done|].
      apply HV in Ha. apply Ha, elem_of_cons. by right.
  - intros ((Hb & Hne & Hw) & (Hnv & Hnd) & HV).
    assert (Ha : adjacent tree v u).
    { apply Hadj. split; [done|]. apply HV, elem_of_cons. by left. }
    destruct Ha as (nodes & Hv & Hu). rewrite Hv.
    repeat split; try done. apply Hstep; [by eexists|].
    repeat split; try done.
    intros a Ha Hin. apply elem_of_cons in Hin as [->|Hin]; [done|].
    revert Hin. apply HV, elem_of_cons. by right.
Qed.

Lemma unbroken_createTree edges w :
  unbroken (_createTreeFromEdges edges) None w ↔ chain edges w.
Proof.
  rewrite (unbroken_iff_walk edges w []).
  - unfold chain. split; [tauto|]. intros [? ?]. repeat split; try done.
    intros a _ Ha. by apply elem_of_nil in Ha.
  - apply is_Some_createTree.
  - intros a b. rewrite adjacent_createTree. split; [|tauto].
    intros H. split; [done|]. intros Ha. by apply elem_of_nil in Ha.
Qed.

(** *** The longest chain over all starting nodes *)

Lemma fold_left_append {A B} (f : A → B) (l : list A) (acc : list B) :
  fold_left (λ acc a, acc ++ [f a]) l acc = acc ++ (f <$> l).
Proof.
  revert acc. induction l as [|a l IH]; intros acc; simpl.
  - by rewrite app_nil_r.
  - by rewrite IH, <- app_assoc.
Qed.

Lemma fold_left_max_spec l : ∀ x,
  (fold_left Z.max l x = x ∨ fold_left Z.max l x ∈ l)
  ∧ x ≤ fold_left Z.max l x
  ∧ ∀ y, y ∈ l → y ≤ fold_left Z.max l x.
Proof.
  induction l as [|a l IH]; intros x; simpl.
  { split; [by left|]. split; [lia|]. intros y Hy. by apply elem_of_nil in Hy. }
  destruct (IH (Z.max x a)) as (Hin & Hge & Hall). split; [|split].
  - destruct Hin as [->|Hin].
    + destruct (Z.max_spec x a) as [[_ ->]|[_ ->]]; [right|by left].
      apply elem_of_cons. by left.
    + right. apply elem_of_cons. by right.
  - lia.
  - intros y Hy. apply elem_of_cons in Hy as [->|Hy]; [lia|by apply Hall].
Qed.

Lemma py_max_spec x l :
  py_max (x :: l) ∈ x :: l ∧ ∀ y, y ∈ x :: l → y ≤ py_max (x :: l).
Proof.
  simpl. destruct (fold_left_max_spec l x) as (Hin & Hge & Hall). split.
  - apply elem_of_cons. destruct Hin as [->|Hin]; [by left|by right].
  - intros y Hy. apply elem_of_cons in Hy as [->|Hy]; [done|by apply Hall].
Qed.

Lemma elem_of_iterkeys {A} (d : gmap Z A) k :
  k ∈ iterkeys d ↔ is_Some (d !! k).
Proof.
  unfold iterkeys. rewrite list_elem_of_fmap. split.
  - intros ([k' a] & -> & Hin). apply elem_of_map_to_list in Hin. by eexists.
  - intros [a Ha]. exists (k, a). split; [done|]. by apply elem_of_map_to_list.
Qed.

Lemma longest_chain_eq edges :
  longest_chain edges
  = py_max (0 :: ((λ node, Z.of_nat (length (_longest_path node
                       (_createTreeFromEdges edges) None)) - 1)
                  <$> iterkeys (_createTreeFromEdges edges))).
Proof. unfold longest_chain. cbv zeta. by rewrite fold_left_append. Qed.

Lemma chain_nonempty edges w : chain edges w → ∃ start rest, w = start :: rest.
Proof. destruct w as [|start rest]; [by intros [[] _]|by eexists _, _]. Qed.

(** No unbroken chain of the graph has more bonds than [longest_chain]. *)
Lemma longest_chain_upper edges w :
  chain edges w → edge_count w ≤ longest_chain edges.
Proof.
  intros Hc. destruct (chain_nonempty _ _ Hc) as (start & rest & ->).
  apply unbroken_createTree in Hc.
  pose proof (longest_path_complete _ _ _ _ Hc) as Hlen.
  rewrite longest_chain_eq.
  match goal with |- _ ≤ py_max (?x :: ?l) =>
    destruct (py_max_spec x l) as [_ Hmax] end.
  etrans; [|apply Hmax].
  2:{ apply elem_of_cons. right. apply list_elem_of_fmap. exists start.
      split; [reflexivity|]. apply elem_of_iterkeys.
      simpl in Hc. destruct (_ !! start); [by eexists|done]. }
  unfold edge_count. simpl in *. lia.
Qed.

(** Some unbroken chain has exactly [longest_chain] bonds, as soon as the
    graph has a bond. *)
Lemma longest_chain_attained edges :
  edges ≠ [] → ∃ w, chain edges w ∧ edge_count w = longest_chain edges.
Proof.
  intros Hne. rewrite longest_chain_eq.
  match goal with |- ∃ w, _ ∧ _ = py_max (?x :: ?l) =>
    destruct (py_max_spec x l) as [Hin _] end.
  apply elem_of_cons in Hin as [->|Hin].
  - destruct edges as [|[v1 v2] edges]; [done|]. exists [v1]. split; [|done].
    split; [|constructor]. simpl. apply graph_nodes_cons. by left.
  - apply list_elem_of_fmap in Hin as (start & Heq & Hkey).
    apply elem_of_iterkeys in Hkey.
    destruct (longest_path_sound _ start None Hkey) as (w & Hw & Hp).
    exists (start :: w). split; [by apply unbroken_createTree|].
    by rewrite Heq, Hp, length_reverse.
Qed.

Lemma longest_chain_nil : longest_chain [] = 0.
Proof. reflexivity. Qed.

Lemma signature_inv nn_ids nns nn j k l :
  signature nn_ids nns nn = Ok (j, k, l) →
  ∃ common_nns nn_bonds,
    common_neighbours nn_ids nns nn = Ok common_nns
    ∧ neighbour_bonds nn_ids common_nns = Ok nn_bonds
    ∧ j = Z.of_nat (size common_nns)
    ∧ k = Z.of_nat (length nn_bonds)
    ∧ l = longest_chain nn_bonds.
Proof.
  unfold signature.
  destruct (common_neighbours nn_ids nns nn) as [c|e]; simpl; [|done].
  destruct (neighbour_bonds nn_ids c) as [b|e] eqn:Hb; simpl; [|done].
  intros [= <- <- <-]. by exists c, b.
Qed.

(** ** The shared neighbours and the bonds between them *)

Lemma sorted_pair_spec x y a b :
  (a, b) = sorted_pair x y ↔ a ≤ b ∧ ((a = x ∧ b = y) ∨ (a = y ∧ b = x)).
Proof.
  unfold sorted_pair. split.
  - intros [= -> ->]. lia.
  - intros [Hle [[-> ->]|[-> ->]]]; f_equal; lia.
Qed.

Lemma getitem_Some {A} (d : gmap Z A) k a : d !! k = Some a → getitem d k = Ok a.
Proof. unfold getitem. by intros ->. Qed.

(** The inner loop adds the bonds of [common_nn] that are not yet listed. *)
Lemma fold_add_bond common_nn nn_bond_list : ∀ nn_bonds,
  let r := fold_left (add_bond common_nn) nn_bond_list nn_bonds in
  (NoDup nn_bonds → NoDup r)
  ∧ ∀ p, p ∈ r
         ↔ p ∈ nn_bonds
           ∨ ∃ nn_bond, nn_bond ∈ nn_bond_list
                        ∧ p = sorted_pair common_nn nn_bond.
Proof.
  induction nn_bond_list as [|y ys IH]; intros nn_bonds; simpl.
  { split; [done|]. intros p. split; [by left|].
    intros [H|(? & H & _)]; [done|by apply elem_of_nil in H]. }
  destruct (IH (add_bond common_nn nn_bonds y)) as [Hnd Hin].
  assert (Hadd : (NoDup nn_bonds → NoDup (add_bond common_nn nn_bonds y))
                 ∧ ∀ p, p ∈ add_bond common_nn nn_bonds y
                        ↔ p ∈ nn_bonds ∨ p = sorted_pair common_nn y).
  { unfold add_bond. case_decide as Hmem; split; try done.
    - intros p. split; [by left|]. intros [H| ->]; done.
    - intros H. apply NoDup_app. split; [done|]. split; [|apply NoDup_singleton].
      intros p Hp Hp'. apply list_elem_of_singleton in Hp' as ->. done.
    - intros p. rewrite elem_of_app, list_elem_of_singleton. done. }
  destruct Hadd as [Hadd1 Hadd2]. split; [auto|].
  intros p. rewrite Hin, Hadd2. setoid_rewrite elem_of_cons. split.
  - intros [[H|H]|(n & Hn & Hp)]; eauto 6.
  - intros [H|(n & [->|Hn] & Hp)]; eauto 6.
Qed.

Lemma elem_of_shared (ids : list Z) (common_nns : gset Z) y :
  y ∈ elements (list_to_set ids ∩ common_nns) ↔ y ∈ ids ∧ y ∈ common_nns.
Proof. rewrite elem_of_elements, elem_of_intersection, elem_of_list_to_set. done. Qed.

(** The outer loop, from any list of nodes [cs] still to visit. *)
Lemma neighbour_bonds_loop nn_ids (common_nns : gset Z) cs : ∀ acc,
  (∀ c, c ∈ cs → is_Some (nn_ids !! c)) →
  ∃ nn_bonds,
    for_result cs
      (λ nn_bonds common_nn,
         ids ← getitem nn_ids common_nn;
         mret (fold_left (add_bond common_nn)
                         (elements (list_to_set ids ∩ common_nns)) nn_bonds))
      acc = Ok nn_bonds
    ∧ (NoDup acc → NoDup nn_bonds)
    ∧ ∀ p, p ∈ nn_bonds
           ↔ p ∈ acc
             ∨ ∃ c d, c ∈ cs ∧ d ∈ common_nns ∧ adjacent nn_ids c d
                      ∧ p = sorted_pair c d.
Proof.
  induction cs as [|c cs IH]; intros acc Hkeys; simpl.
  { exists acc. split; [done|]. split; [done|]. intros p. split; [by left|].
    intros [H|(? & ? & H & _)]; [done|by apply elem_of_nil in H]. }
  destruct (Hkeys c) as [ids Hids]; [apply elem_of_cons; by left|].
  rewrite (getitem_Some _ _ _ Hids). simpl.
  destruct (fold_add_bond c (elements (list_to_set ids ∩ common_nns)) acc)
    as [Hnd Hin].
  destruct (IH (fold_left (add_bond c)
                  (elements (list_to_set ids ∩ common_nns)) acc))
    as (nn_bonds & Hrun & Hnd' & Hin').
  { intros c' Hc'. apply Hkeys, elem_of_cons. by right. }
  exists nn_bonds. split; [done|]. split; [auto|].
  intros p. rewrite Hin', Hin. setoid_rewrite elem_of_shared.
  setoid_rewrite elem_of_cons. unfold adjacent. split.
  - intros [[H|(d & [Hd Hdc] & ->)]|(c' & d & Hc' & Hd & Ha & ->)].
    + by left.
    + right. exists c, d. eauto 8.
    + right. exists c', d. eauto 8.
  - intros [H|(c' & d & [->|Hc'] & Hd & (ids' & Hids' & Hdi) & ->)].
    + by left; left.
    + left. right. exists d. rewrite Hids in Hids'. injection Hids' as ->. done.
    + right. exists c', d. eauto 8.
Qed.

(** The list of bonds holds each bond between two shared neighbours once, in
    its sorted form, and nothing else. *)
Lemma neighbour_bonds_spec nn_ids (common_nns : gset Z) :
  (∀ c, c ∈ common_nns → is_Some (nn_ids !! c)) →
  ∃ nn_bonds,
    neighbour_bonds nn_ids common_nns = Ok nn_bonds
    ∧ NoDup nn_bonds
    ∧ ∀ c d, (c, d) ∈ nn_bonds
             ↔ c ≤ d ∧ c ∈ common_nns ∧ d ∈ common_nns
               ∧ (adjacent nn_ids c d ∨ adjacent nn_ids d c).
Proof.
  intros Hkeys.
  destruct (neighbour_bonds_loop nn_ids common_nns (elements common_nns) [])
    as (nn_bonds & Hrun & Hnd & Hin).
  { intros c Hc. apply Hkeys. by apply elem_of_elements. }
  exists nn_bonds. split; [done|]. split; [apply Hnd; constructor|].
  intros c d. rewrite Hin. setoid_rewrite elem_of_elements.
  setoid_rewrite sorted_pair_spec. split.
  - intros [H|(x & y & Hx & Hy & Ha & Hle & [[-> ->]|[-> ->]])];
      [by apply elem_of_nil in H| |]; tauto.
  - intros (Hle & Hc & Hd & [Ha|Ha]); right.
    + exists c, d. tauto.
    + exists d, c. tauto.
Qed.

Lemma common_neighbours_Some nn_ids nns nn ids :
  nn_ids !! nn = Some ids →
  common_neighbours nn_ids nns nn = Ok (list_to_set ids ∩ list_to_set nns).
Proof. intros H. unfold common_neighbours. by rewrite (getitem_Some _ _ _ H). Qed.

(** The signature is computed as soon as the neighbour and the shared
    neighbours are keys of the dictionary. *)
Lemma signature_Ok nn_ids nns nn ids :
  nn_ids !! nn = Some ids →
  (∀ c, c ∈ nns → c ∈ ids → is_Some (nn_ids !! c)) →
  ∃ nn_bonds,
    neighbour_bonds nn_ids (list_to_set ids ∩ list_to_set nns) = Ok nn_bonds
    ∧ signature nn_ids nns nn
      = Ok (Z.of_nat (size (list_to_set ids ∩ list_to_set nns : gset Z)),
            Z.of_nat (length nn_bonds), longest_chain nn_bonds)
    ∧ NoDup nn_bonds
    ∧ ∀ c d, (c, d) ∈ nn_bonds
             ↔ c ≤ d ∧ (c ∈ nns ∧ c ∈ ids) ∧ (d ∈ nns ∧ d ∈ ids)
               ∧ (adjacent nn_ids c d ∨ adjacent nn_ids d c).
Proof.
  intros Hnn Hkeys.
  destruct (neighbour_bonds_spec nn_ids (list_to_set ids ∩ list_to_set nns))
    as (nn_bonds & Hrun & Hnd & Hin).
  { intros c Hc. apply elem_of_intersection in Hc as [Hi Hn].
    apply elem_of_list_to_set in Hi, Hn. by apply Hkeys. }
  exists nn_bonds. split; [done|]. split; [|split; [done|]].
  - unfold signature. rewrite (common_neighbours_Some _ _ _ _ Hnn). simpl.
    by rewrite Hrun.
  - intros c d. rewrite Hin, !elem_of_intersection, !elem_of_list_to_set. tauto.
Qed.

(** An atom [0] and its neighbour [1] with three shared neighbours bonded to
    one another: a triangle of bonds. *)
Definition clique5 : gmap Z (list Z) :=
  list_to_map [(0, [1; 2; 3; 4]); (1, [0; 2; 3; 4]); (2, [0; 1; 3; 4]);
               (3, [0; 1; 2; 4]); (4, [0; 1; 2; 3])].

Lemma clique5_keys c :
  c ∈ [1; 2; 3; 4] → c ∈ [0; 2; 3; 4] → is_Some (clique5 !! c).
Proof.
  intros Hc _. repeat (apply elem_of_cons in Hc as [->|Hc]; [by eexists|]).
  by apply elem_of_nil in Hc.
Defined.

(** C2: for a neighbour [nn] of an atom with neighbours [nns], [j] is the
    size of the intersection of the two neighbour sets, and [k] is the
    length of a list without repetition that holds exactly the sorted pairs
    [(c, d)] of shared neighbours of which one is in the neighbour list of
    the other: every unordered pair is counted once. *)
Theorem signature_counts_shared_neighbours_and_bonds nn_ids nns nn ids :
  nn_ids !! nn = Some ids →
  (∀ c, c ∈ nns → c ∈ ids → is_Some (nn_ids !! c)) →
  ∃ nn_bonds l,
    signature nn_ids nns nn
    = Ok (Z.of_nat (size (list_to_set nns ∩ list_to_set ids : gset Z)),
          Z.of_nat (length nn_bonds), l)
    ∧ NoDup nn_bonds
    ∧ ∀ c d, (c, d) ∈ nn_bonds
             ↔ c ≤ d ∧ (c ∈ nns ∧ c ∈ ids) ∧ (d ∈ nns ∧ d ∈ ids)
               ∧ (adjacent nn_ids c d ∨ adjacent nn_ids d c).
Proof.
  intros Hnn Hkeys.
  destruct (signature_Ok nn_ids nns nn ids Hnn Hkeys)
    as (nn_bonds & _ & Hsig & Hnd & Hin).
  exists nn_bonds, (longest_chain nn_bonds).
  rewrite (comm_L (∩) (list_to_set nns)). done.
Qed.

Lemma signature_counts_witness :
  ∃ nn_bonds l,
    signature clique5 [1; 2; 3; 4] 1
    = Ok (Z.of_nat (size (list_to_set [1; 2; 3; 4]
                          ∩ list_to_set [0; 2; 3; 4] : gset Z)),
          Z.of_nat (length nn_bonds), l)
    ∧ NoDup nn_bonds
    ∧ ∀ c d, (c, d) ∈ nn_bonds
             ↔ c ≤ d ∧ (c ∈ [1; 2; 3; 4] ∧ c ∈ [0; 2; 3; 4])
               ∧ (d ∈ [1; 2; 3; 4] ∧ d ∈ [0; 2; 3; 4])
               ∧ (adjacent clique5 c d ∨ adjacent clique5 d c).
Proof.
  apply (signature_counts_shared_neighbours_and_bonds
           clique5 [1; 2; 3; 4] 1 [0; 2; 3; 4]).
  - reflexivity.
  - exact clique5_keys.
Defined.

(** C1: [l] is the number of bonds of the longest unbroken chain of the
    graph of the bonds between the shared neighbours: no walk that never
    steps back to the node it has just left, and whose nodes but the last
    are distinct, has more bonds; one has as many, from some starting node;
    and [l] is [0] when there is no bond. *)
Theorem signature_longest_unbroken_chain nn_ids nns nn ids :
  nn_ids !! nn = Some ids →
  (∀ c, c ∈ nns → c ∈ ids → is_Some (nn_ids !! c)) →
  ∃ j k l nn_bonds,
    signature nn_ids nns nn = Ok (j, k, l)
    ∧ neighbour_bonds nn_ids (list_to_set ids ∩ list_to_set nns) = Ok nn_bonds
    ∧ (∀ w, chain nn_bonds w → edge_count w ≤ l)
    ∧ (nn_bonds ≠ [] → ∃ w, chain nn_bonds w ∧ edge_count w = l)
    ∧ (nn_bonds = [] → l = 0).
Proof.
  intros Hnn Hkeys.
  destruct (signature_Ok nn_ids nns nn ids Hnn Hkeys)
    as (nn_bonds & Hrun & Hsig & _).
  eexists _, _, (longest_chain nn_bonds), nn_bonds.
  split; [exact Hsig|]. split; [exact Hrun|]. split; [|split].
  - intros w. apply longest_chain_upper.
  - apply longest_chain_attained.
  - intros ->. apply longest_chain_nil.
Qed.

Lemma signature_longest_unbroken_chain_witness :
  ∃ j k l nn_bonds,
    signature clique5 [1; 2; 3; 4] 1 = Ok (j, k, l)
    ∧ neighbour_bonds clique5 (list_to_set [0; 2; 3; 4]
                               ∩ list_to_set [1; 2; 3; 4]) = Ok nn_bonds
    ∧ (∀ w, chain nn_bonds w → edge_count w ≤ l)
    ∧ (nn_bonds ≠ [] → ∃ w, chain nn_bonds w ∧ edge_count w = l)
    ∧ (nn_bonds = [] → l = 0).
Proof.
  apply (signature_longest_unbroken_chain clique5 [1; 2; 3; 4] 1 [0; 2; 3; 4]).
  - reflexivity.
  - exact clique5_keys.
Defined.

(** On the triangle the signature is [3,3,3], while a walk that never steps
    back runs through four bonds (and round the triangle for ever). *)
Lemma walk_longer_than_l_on_triangle :
  signature clique5 [1; 2; 3; 4] 1 = Ok (3, 3, 3)
  ∧ neighbour_bonds clique5 (list_to_set [0; 2; 3; 4]
                             ∩ list_to_set [1; 2; 3; 4])
    = Ok [(3, 4); (2, 3); (2, 4)]
  ∧ walk [(3, 4); (2, 3); (2, 4)] None [2; 3; 4; 2; 3]
  ∧ edge_count [2; 3; 4; 2; 3] = 4.
Proof.
  split; [by vm_compute|]. split; [by vm_compute|]. split; [|done].
  simpl. unfold bonded, graph_nodes. simpl.
  repeat split; try done; rewrite ?elem_of_cons; auto 10.
Qed.

(** ** Termination of the search *)

Lemma longest_path_last tree start lastnode :
  is_Some (tree !! start) →
  last (_longest_path start tree lastnode) = Some start.
Proof.
  intros [nodes Hs]. rewrite _longest_path_eq, Hs. apply last_snoc.
Qed.

(** C10: [_longest_path] is a total function that satisfies the recursion
    of the source; every call it makes is on a map with strictly fewer
    adjacency entries, the list of the current node having been emptied;
    the path returned ends with the start node when that is a key of the
    map, and is empty when it is not. *)
Theorem longest_path_terminates tree start lastnode :
  (∀ nodes node,
     tree !! start = Some nodes → node ∈ nodes →
     (total_entries (<[start := []]> tree) < total_entries tree)%nat)
  ∧ _longest_path start tree lastnode
    = match tree !! start with
      | None => []
      | Some nodes =>
          fold_left
            (visit (λ n, _longest_path n (<[start := []]> tree) (Some start))
                   lastnode)
            nodes [] ++ [start]
      end
  ∧ (is_Some (tree !! start) →
     last (_longest_path start tree lastnode) = Some start
     ∧ start ∈ _longest_path start tree lastnode)
  ∧ (tree !! start = None → _longest_path start tree lastnode = []).
Proof.
  split; [|split; [|split]].
  - intros nodes node Hs Hn. by eapply emptied_decreases.
  - apply _longest_path_eq.
  - intros Hs. pose proof (longest_path_last tree start lastnode Hs) as Hl.
    split; [done|]. rewrite last_Some in Hl. destruct Hl as [l' ->].
    apply elem_of_app. right. by apply list_elem_of_singleton.
  - intros Hs. by rewrite _longest_path_eq, Hs.
Qed.

(** From a start node that is not a key of the map the path is empty. *)
Lemma longest_path_of_missing_start :
  _longest_path 0 ∅ None = [] ∧ 0 ∉ _longest_path 0 ∅ None.
Proof.
  assert (H : _longest_path 0 ∅ None = []) by reflexivity.
  split; [done|]. rewrite H. apply not_elem_of_nil.
Qed.

(** ** The classifier *)

Lemma spec_matches_iff count expected tolerance :
  spec_matches tolerance count expected = true
  ↔ (inject_Z expected * tolerance <= inject_Z count)%Q
    ∧ (inject_Z count <= inject_Z expected * (2 - tolerance))%Q.
Proof.
  unfold spec_matches. by rewrite andb_true_iff, !Qle_bool_iff.
Qed.

(** At tolerance one the exact window is the expected count alone. *)
Lemma spec_matches_exact count expected :
  spec_matches 1 count expected = true ↔ count = expected.
Proof.
  rewrite spec_matches_iff.
  assert (H1 : (inject_Z expected * 1 == inject_Z expected)%Q) by ring.
  assert (H2 : (inject_Z expected * (2 - 1) == inject_Z expected)%Q) by ring.
  rewrite H1, H2, <- !Zle_Qle. lia.
Qed.

(** Where the float of [j] exists, [_equala] is the rounded window. *)
Lemma _equala_rounded_matches i j accuracy f :
  float_of_int j = Ok f →
  _equala i j accuracy = Ok (rounded_matches accuracy i j).
Proof.
  unfold _equala, rounded_matches, float_of_int.
  by destruct (binary_normalize prec emax j 0 false).
Qed.

(** The comparisons of a count with a float that is an integer. *)
Lemma float_compare_int_of_integer a s m e n k :
  Prim2SF a = S754_finite s m e → e < 0 →
  (if s then Zneg m else Zpos m) = k * 2 ^ (- e) →
  float_compare_int a n = Some (k ?= n).
Proof.
  intros Ha He Hk. unfold float_compare_int. rewrite Ha. cbv zeta.
  case_decide; [lia|]. rewrite Hk. f_equal.
  assert (0 < 2 ^ (- e)) by (apply Z.pow_pos_nonneg; lia).
  destruct (Z.compare_spec k n) as [->|Hlt|Hgt].
  - apply Z.compare_refl.
  - apply Z.compare_lt_iff. nia.
  - apply Z.compare_gt_iff. nia.
Qed.

(** At tolerance one the rounded window is the expected count alone, for
    the expected counts of the rules. *)
Lemma rounded_matches_exact count expected :
  expected ∈ [4; 6; 8; 12] →
  rounded_matches 1 count expected = true ↔ count = expected.
Proof.
  intros Hin.
  assert (Hcompare :
    let e := SF2Prim (binary_normalize prec emax expected 0 false) in
    float_compare_int (e * 1) count = Some (expected ?= count)
    ∧ float_compare_int (e + e * (1 - 1)) count = Some (expected ?= count)).
  { repeat (apply elem_of_cons in Hin as [->|Hin]);
      [| | | |by apply elem_of_nil in Hin];
      split;
      (eapply float_compare_int_of_integer;
         [by vm_compute|lia|by vm_compute]). }
  unfold rounded_matches, float_le_int, int_le_float. cbv zeta in *.
  destruct Hcompare as [-> ->].
  destruct (Z.compare_spec expected count); simpl; split; (done || lia).
Qed.

(** The chain of tests is the first rule that holds. *)
Lemma category_rules counter accuracy :
  category counter accuracy
  = Ok (spec_first_match (spec_rules (rounded_matches accuracy) counter)).
Proof.
  unfold category, spec_rules, and_then. cbv zeta.
  rewrite !(_equala_rounded_matches _ 6 accuracy 6) by reflexivity.
  rewrite !(_equala_rounded_matches _ 12 accuracy 12) by reflexivity.
  rewrite !(_equala_rounded_matches _ 8 accuracy 8) by reflexivity.
  rewrite !(_equala_rounded_matches _ 4 accuracy 4) by reflexivity.
  simpl.
  repeat match goal with
         | |- context [rounded_matches accuracy ?c ?e] =>
             destruct (rounded_matches accuracy c e); simpl; try reflexivity
         end.
Qed.

(** C3: the label of an atom is the first, in the order HCP, FCC, BCC,
    Diamond, Icosahedral, whose rule holds, and Other when none holds; a
    count matches an expected value exactly when it lies in the window from
    [expected*tolerance] to [expected + expected*(1-tolerance)] as binary64
    computes its two ends, which at tolerance one, for the expected counts
    of the rules, is when it is the expected value, as in the exact
    window. *)
Theorem category_first_matching_rule counter accuracy :
  category counter accuracy
  = Ok (spec_first_match (spec_rules (rounded_matches accuracy) counter))
  ∧ (∀ count expected f,
       float_of_int expected = Ok f →
       _equala count expected accuracy
       = Ok (rounded_matches accuracy count expected))
  ∧ (∀ count expected,
       expected ∈ [4; 6; 8; 12] →
       (_equala count expected 1 = Ok true ↔ count = expected)
       ∧ rounded_matches 1 count expected = spec_matches 1 count expected)
  ∧ category counter 1
    = Ok (spec_first_match (spec_rules (spec_matches 1) counter)).
Proof.
  assert (Hrules := category_rules counter).
  assert (Hexact : ∀ count expected,
    expected ∈ [4; 6; 8; 12] →
    rounded_matches 1 count expected = spec_matches 1 count expected).
  { intros count expected Hin. apply Bool.eq_iff_eq_true.
    by rewrite rounded_matches_exact, spec_matches_exact. }
  split; [apply Hrules|]. split.
  { intros count expected f. apply _equala_rounded_matches. }
  split.
  - intros count expected Hin. split; [|by apply Hexact].
    assert (Hf : ∃ f, float_of_int expected = Ok f).
    { repeat (apply elem_of_cons in Hin as [->|Hin]);
        [| | | |by apply elem_of_nil in Hin]; by eexists. }
    destruct Hf as [f Hf].
    rewrite (_equala_rounded_matches _ _ _ f Hf), <- rounded_matches_exact
      by done.
    split; [by intros [= ->]|by intros ->].
  - rewrite Hrules. unfold spec_rules. cbv zeta.
    rewrite !Hexact; [done|..]; rewrite !elem_of_cons; auto.
Qed.

(** At the tolerance [5/6] of binary64 the window of the expected count [6]
    has the ends [5] and [7] after rounding, and [5] and [7] are outside of
    the window on the numbers themselves: five [4,2,1] and five [4,2,2] are
    HCP for [cna_categories] and match no rule of the specification. *)
Lemma rounded_window_accepts_five :
  (0 < Q_of_float (5 / 6))%Q ∧ (Q_of_float (5 / 6) <= 1)%Q
  ∧ ((6 * (5 / 6) =? 5) && (6 + 6 * (1 - 5 / 6) =? 7))%float = true
  ∧ category (Counter (replicate 5 "4,2,1" ++ replicate 5 "4,2,2")) (5 / 6)
    = Ok "HCP"
  ∧ spec_first_match
      (spec_rules (spec_matches (Q_of_float (5 / 6)))
         (Counter (replicate 5 "4,2,1" ++ replicate 5 "4,2,2")))
    = "Other".
Proof. by vm_compute. Qed.

(** An ideal FCC and an ideal HCP environment, at exact matching. *)
Example category_fcc :
  category (Counter (replicate 12 "4,2,1")) 1 = Ok "FCC".
Proof. by vm_compute. Qed.

Example category_hcp :
  category (Counter (replicate 6 "4,2,1" ++ replicate 6 "4,2,2")) 1
  = Ok "HCP".
Proof. by vm_compute. Qed.

(** Nine [4,2,1] and four [4,2,2] at tolerance one half satisfy the rules of
    HCP and of FCC: HCP comes first. *)
Example category_priority :
  category (Counter (replicate 9 "4,2,1" ++ replicate 4 "4,2,2")) 0.5
  = Ok "HCP".
Proof. by vm_compute. Qed.

(** ** Cell repetition *)

(** A loop raises what one of its turns raises. *)
Lemma for_result_Raise {A S} (l : list A) (body : S → A → result S) :
  ∀ s e, for_result l body s = Raise e →
         ∃ s' a, a ∈ l ∧ body s' a = Raise e.
Proof.
  induction l as [|a l IH]; intros s e; simpl; [done|].
  destruct (body s a) as [s'|e'] eqn:Hbody; simpl.
  - intros H. destruct (IH _ _ H) as (s'' & a' & Ha' & Hr).
    exists s'', a'. split; [apply elem_of_cons; by right|done].
  - intros [= <-]. exists s, a. split; [apply elem_of_cons; by left|done].
Qed.

Lemma for_result_app {A S} (l1 l2 : list A) (body : S → A → result S) s :
  for_result (l1 ++ l2) body s
  = s' ← for_result l1 body s; for_result l2 body s'.
Proof.
  revert s. induction l1 as [|a l1 IH]; intros s; simpl; [done|].
  destruct (body s a); simpl; [apply IH|done].
Qed.

Lemma for_result_ext {A S} (l : list A) (body body' : S → A → result S) s :
  (∀ s a, a ∈ l → body s a = body' s a) →
  for_result l body s = for_result l body' s.
Proof.
  revert s. induction l as [|a l IH]; intros s Hbody; simpl; [done|].
  rewrite Hbody by (apply elem_of_cons; by left).
  destruct (body' s a); simpl; [|done].
  apply IH. intros s' a' Ha'. apply Hbody, elem_of_cons. by right.
Qed.

(** Nested loops are one loop over the elements in their order. *)
Lemma for_result_bind {A B S} (l : list A) (g : A → list B)
    (body : S → B → result S) s :
  for_result (l ≫= g) body s
  = for_result l (λ s a, for_result (g a) body s) s.
Proof.
  revert s. induction l as [|a l IH]; intros s; [done|].
  rewrite bind_cons, for_result_app. simpl.
  destruct (for_result (g a) body s); simpl; [apply IH|done].
Qed.

(** The triples [(i, j, k)] of the repetitions, in the order of the three
    loops of [repeat_cell]. *)
Definition offsets (repetitions : (Z * Z) * (Z * Z) * (Z * Z))
    : list (Z * Z * Z) :=
  i ← Atom_Manipulation.inclusive_range repetitions.1.1;
  j ← Atom_Manipulation.inclusive_range repetitions.1.2;
  k ← Atom_Manipulation.inclusive_range repetitions.2;
  [(i, j, k)].

(** The floats of a triple. *)
Definition floats_of (ijk : Z * Z * Z) : result (float * float * float) :=
  i ← float_of_int ijk.1.1;
  j ← float_of_int ijk.1.2;
  k ← float_of_int ijk.2;
  Ok (i, j, k).

(** The copy of a table for a triple of floats. *)
Definition copy_of (self : Atom_Manipulation.t)
    (vectors : point * point * point) (f : float * float * float)
    : list Atom_Manipulation.atom :=
  Atom_Manipulation.translate vectors f.1.1 f.1.2 f.2
    <$> Atom_Manipulation.df self.

Lemma repeat_copy_floats self vectors ijk dfs :
  Atom_Manipulation.repeat_copy self vectors ijk.1.1 ijk.1.2 ijk.2 dfs
  = f ← floats_of ijk; Ok (dfs ++ [copy_of self vectors f]).
Proof.
  unfold Atom_Manipulation.repeat_copy, floats_of.
  destruct (float_of_int ijk.1.1); simpl; [|done].
  destruct (float_of_int ijk.1.2); simpl; [|done].
  by destruct (float_of_int ijk.2).
Qed.

Lemma repeat_cell_offsets self vectors repetitions :
  Atom_Manipulation.repeat_cell self vectors repetitions
  = dfs ← for_result (offsets repetitions)
            (λ dfs ijk, f ← floats_of ijk; Ok (dfs ++ [copy_of self vectors f]))
            [];
    atom_df ← Atom_Manipulation.concat dfs;
    Ok (Atom_Manipulation.set_atom_df self atom_df).
Proof.
  destruct repetitions as [[ri rj] rk].
  unfold Atom_Manipulation.repeat_cell, offsets. cbn [fst snd].
  f_equal. rewrite for_result_bind. apply for_result_ext. intros dfs i _.
  rewrite for_result_bind. apply for_result_ext. intros dfs' j _.
  rewrite for_result_bind. apply for_result_ext. intros dfs'' k _.
  simpl. rewrite <- (repeat_copy_floats self vectors (i, j, k)). simpl.
  by destruct (Atom_Manipulation.repeat_copy _ _ _ _ _ _).
Qed.

(** The loop over the triples returns when every triple has its floats,
    with one copy for each triple, in their order; it raises the
    [OverflowError] of a triple that has not. *)
Lemma copies_Ok self vectors offs : ∀ dfs0 dfs,
  for_result offs
    (λ dfs ijk, f ← floats_of ijk; Ok (dfs ++ [copy_of self vectors f])) dfs0
  = Ok dfs
  ↔ ∃ fs, Forall2 (λ ijk f, floats_of ijk = Ok f) offs fs
          ∧ dfs = dfs0 ++ (copy_of self vectors <$> fs).
Proof.
  induction offs as [|ijk offs IH]; intros dfs0 dfs; simpl.
  - split.
    + intros [= <-]. exists []. split; [constructor|by rewrite app_nil_r].
    + intros (fs & Hfs & ->). apply Forall2_nil_inv_l in Hfs as ->.
      by rewrite app_nil_r.
  - destruct (floats_of ijk) as [f|e] eqn:Hf; simpl.
    + rewrite IH. split.
      * intros (fs & Hfs & ->). exists (f :: fs).
        split; [by constructor|]. by rewrite <- app_assoc.
      * intros (fs & Hfs & ->).
        apply Forall2_cons_inv_l in Hfs as (f' & fs' & Hf' & Hfs & ->).
        rewrite Hf in Hf'. injection Hf' as <-. exists fs'.
        split; [done|]. by rewrite <- app_assoc.
    + split; [done|]. intros (fs & Hfs & _).
      apply Forall2_cons_inv_l in Hfs as (f' & fs' & Hf' & _).
      congruence.
Qed.

Lemma floats_of_Raise ijk e : floats_of ijk = Raise e → e = OverflowError.
Proof.
  assert (H : ∀ n e', float_of_int n = Raise e' → e' = OverflowError).
  { intros n e'. unfold float_of_int.
    destruct (binary_normalize prec emax n 0 false); by intros [= <-]. }
  unfold floats_of.
  destruct (float_of_int ijk.1.1) eqn:H1; simpl; [|intros [= <-]; eauto].
  destruct (float_of_int ijk.1.2) eqn:H2; simpl; [|intros [= <-]; eauto].
  destruct (float_of_int ijk.2) eqn:H3; simpl; [done|intros [= <-]; eauto].
Qed.

Lemma copies_Raise self vectors offs dfs0 e :
  for_result offs
    (λ dfs ijk, f ← floats_of ijk; Ok (dfs ++ [copy_of self vectors f])) dfs0
  = Raise e →
  e = OverflowError.
Proof.
  intros (dfs & ijk & _ & Hr)%for_result_Raise.
  destruct (floats_of ijk) eqn:Hf; simpl in Hr; [done|].
  injection Hr as <-. by eapply floats_of_Raise.
Qed.

(** One step back and one step forward on each axis. *)
Definition single_step : (Z * Z) * (Z * Z) * (Z * Z) :=
  ((-1, 1), (-1, 1), (-1, 1)).

(** The unit cell of a cubic lattice, with one atom at its origin. *)
Definition cubic_cell : point * point * point :=
  ((1, 0, 0), (0, 1, 0), (0, 0, 1))%float.

Definition origin_atom : Atom_Manipulation.atom :=
  Atom_Manipulation.Atom 0 0 0 "X".

(** The floats of the triples of a single step, in the order of the loops. *)
Definition single_step_floats : list (float * float * float) :=
  i ← [-1; 0; 1]%float; j ← [-1; 0; 1]%float; k ← [-1; 0; 1]%float;
  [(i, j, k)].

(** [repeat_cell] with a single step: the 27 translated copies, in the
    order of the loops, from [(-1,-1,-1)] to [(1,1,1)]. *)
Lemma single_step_blocks self vectors :
  Atom_Manipulation.repeat_cell self vectors single_step
  = Ok (Atom_Manipulation.set_atom_df self
          (mjoin (copy_of self vectors <$> single_step_floats))).
Proof.
  rewrite repeat_cell_offsets.
  assert (Hloop :
    for_result (offsets single_step)
      (λ dfs ijk, f ← floats_of ijk; Ok (dfs ++ [copy_of self vectors f])) []
    = Ok (copy_of self vectors <$> single_step_floats)).
  { apply copies_Ok. exists single_step_floats. split; [|done].
    repeat constructor. }
  by rewrite Hloop.
Qed.

Lemma mjoin_cons {A} (l : list A) (ls : list (list A)) :
  mjoin (l :: ls) = l ++ mjoin ls.
Proof. reflexivity. Qed.

Lemma length_mjoin_blocks {A B} (f : B → list A) (n : nat) (bs : list B) :
  (∀ b, length (f b) = n) →
  length (mjoin (f <$> bs)) = (length bs * n)%nat.
Proof.
  intros Hf. induction bs as [|b bs IH]; [done|].
  rewrite fmap_cons, mjoin_cons, length_app, Hf, IH. simpl. lia.
Qed.

Lemma block_of_mjoin {A B} (f : B → list A) (len : nat) (bs : list B)
    (n : nat) b :
  (∀ b, length (f b) = len) →
  bs !! n = Some b →
  take len (drop (n * len)%nat (mjoin (f <$> bs))) = f b.
Proof.
  intros Hf. revert n. induction bs as [|b' bs IH]; intros n Hn; [done|].
  rewrite fmap_cons, mjoin_cons. destruct n as [|n].
  - injection Hn as ->. rewrite Nat.mul_0_l, drop_0.
    rewrite take_app_length'; [done|by rewrite Hf].
  - rewrite drop_app_ge; rewrite Hf; [|lia].
    replace (S n * len - len)%nat with (n * len)%nat by lia.
    by apply IH.
Qed.

Lemma df_set_atom_df self atom_df :
  Atom_Manipulation.df (Atom_Manipulation.set_atom_df self atom_df) = atom_df.
Proof. reflexivity. Qed.

Lemma concat_Ok (dfs : list (list Atom_Manipulation.atom)) :
  dfs ≠ [] → Atom_Manipulation.concat dfs = Ok (mjoin dfs).
Proof. by destruct dfs. Qed.

Lemma length_copy_of self vectors f :
  length (copy_of self vectors f) = length (Atom_Manipulation.df self).
Proof. unfold copy_of. apply length_fmap. Qed.

(** C4: a call of [repeat_cell] that asks for the original rows first does
    not bind, for [repeat_cell(self, vectors, repetitions)] has no parameter
    [original_first]: it raises [TypeError], whatever else it passes, and so
    does the call of the analyses with its three positional arguments.  A
    call with the vectors and a single step on each axis returns 27 times as
    many rows in the order of the loops: the first block of rows is the copy
    translated by [-a-b-c], and the untranslated copy (translation by
    [0*a+0*b+0*c]) is the fourteenth block, at the indices
    [13*N .. 14*N-1]. *)
Theorem repeat_cell_has_no_original_first :
  (∀ self positional keywords vectors repetitions,
     "original_first" ∈ keywords →
     Atom_Manipulation.call_repeat_cell self positional keywords vectors
       repetitions
     = Raise TypeError)
  ∧ Atom_Manipulation.call_repeat_cell
      (Atom_Manipulation.init [origin_atom]) 2 {["original_first"]}
      cubic_cell single_step
    = Raise TypeError
  ∧ bind_arguments Atom_Manipulation.repeat_cell_parameters 3
      {["original_first"]}
    = Raise TypeError
  ∧ ∀ self vectors,
      let atoms := Atom_Manipulation.df self in
      ∃ expanded,
        Atom_Manipulation.call_repeat_cell self 2 ∅ vectors single_step
        = Ok expanded
        ∧ length (Atom_Manipulation.df expanded) = (27 * length atoms)%nat
        ∧ take (length atoms) (Atom_Manipulation.df expanded)
          = Atom_Manipulation.translate vectors (-1) (-1) (-1) <$> atoms
        ∧ take (length atoms)
            (drop (13 * length atoms)%nat (Atom_Manipulation.df expanded))
          = Atom_Manipulation.translate vectors 0 0 0 <$> atoms.
Proof.
  assert (Hkeyword : ∀ self positional keywords vectors repetitions,
    "original_first" ∈ keywords →
    Atom_Manipulation.call_repeat_cell self positional keywords vectors
      repetitions
    = Raise TypeError).
  { intros self positional keywords vectors repetitions Hin.
    unfold Atom_Manipulation.call_repeat_cell, bind_arguments. cbv zeta.
    rewrite (bool_decide_eq_false_2 (set_Forall _ keywords)).
    { by rewrite andb_false_r. }
    intros Hall. destruct (Hall _ Hin) as [Hname _]. simpl in Hname.
    by repeat (apply elem_of_cons in Hname as [?|Hname]);
      [| |apply elem_of_nil in Hname]. }
  split; [done|]. split; [by apply Hkeyword, elem_of_singleton|].
  split; [done|].
  - intros self vectors atoms.
    unfold Atom_Manipulation.call_repeat_cell.
    assert (Hbinds :
      bind_arguments Atom_Manipulation.repeat_cell_parameters 2 ∅ = Ok tt)
      by (by vm_compute).
    rewrite Hbinds.
    cbn [mbind result_bind]. rewrite single_step_blocks.
    eexists. split; [done|]. rewrite !df_set_atom_df. subst atoms.
    split; [|split].
    + by rewrite (length_mjoin_blocks _ (length (Atom_Manipulation.df self)))
        by (intros; apply length_copy_of).
    + exact (block_of_mjoin (copy_of self vectors) _
               single_step_floats 0 (-1, -1, -1)%float
               (length_copy_of self vectors) eq_refl).
    + exact (block_of_mjoin (copy_of self vectors) _
               single_step_floats 13 (0, 0, 0)%float
               (length_copy_of self vectors) eq_refl).
Qed.

(** For one atom at the origin of a cubic cell, row [0] of the expanded
    table is at [(-1,-1,-1)] and the atom itself is row [13]. *)
Example repeat_cell_origin_atom :
  Atom_Manipulation.df
    <$> Atom_Manipulation.repeat_cell (Atom_Manipulation.init [origin_atom])
          cubic_cell single_step
  = Ok ((λ f : float * float * float,
           Atom_Manipulation.Atom f.1.1 f.1.2 f.2 "X")
          <$> single_step_floats)
  ∧ single_step_floats !! 0%nat = Some (-1, -1, -1)%float
  ∧ single_step_floats !! 13%nat = Some (0, 0, 0)%float.
Proof. by vm_compute. Qed.

(** ** The coordination number *)

Section Coordination.

Variable kdtree : Type.
Variable cKDTree : list point → Z → kdtree.
Variable query : kdtree → list point → Z → float → Z → list knn_row.
Variable periodic_images : bool → list atom → lattice_meta → list atom.

(** C5: [coordination] makes its instance with
    [Atom_Manipulation(lattice_atoms_df, repeat_meta)], whether [repeat_meta]
    is given or not: two arguments for the one parameter of [__init__].  The
    call raises [TypeError] for every input, before the index is built and
    before anything is counted; a call with the table alone would bind. *)
Theorem coordination_raises_TypeError coord_atoms_df lattice_atoms_df
    max_dist max_coord repeat_meta min_dist leafsize :
  coordination cKDTree query periodic_images coord_atoms_df lattice_atoms_df
               max_dist max_coord repeat_meta min_dist leafsize
  = Raise TypeError
  ∧ bind_arguments Atom_Manipulation.init_parameters 2 ∅ = Raise TypeError
  ∧ bind_arguments Atom_Manipulation.init_parameters 1 ∅ = Ok tt.
Proof. split; [done|]. split; [done|by vm_compute]. Qed.

End Coordination.

(** ** Bond guessing *)

Lemma item_Raise {A} (a : list A) i e : item a i = Raise e → e = IndexError.
Proof.
  unfold item. case_decide; [by intros [= <-]|].
  destruct (a !! Z.to_nat i); [done|by intros [= <-]].
Qed.

Lemma radius_of_Raise covalent_radii t e :
  radius_of covalent_radii t = Raise e → e = KeyError (StrKey t).
Proof. unfold radius_of. destruct (_ !! t); [done|by intros [= <-]]. Qed.

(** A turn of the loop over the pairs raises for an index out of range or
    for a type without a radius, and for nothing else. *)
Lemma guess_bond_Raise atoms covalent_radii threshold radius transparency
    color bonds pair e :
  guess_bond atoms covalent_radii threshold radius transparency color
             bonds pair = Raise e →
  e = IndexError ∨ ∃ t, e = KeyError (StrKey t).
Proof.
  unfold guess_bond. destruct pair as [i j].
  destruct (item atoms i) as [atom_i|e1] eqn:Hi; simpl;
    [|intros [= <-]; left; by eapply item_Raise].
  destruct (radius_of covalent_radii (type atom_i)) as [a|e3] eqn:Ha; simpl;
    [|intros [= <-]; right; eexists; by eapply radius_of_Raise].
  destruct (item atoms j) as [atom_j|e2] eqn:Hj; simpl;
    [|intros [= <-]; left; by eapply item_Raise].
  destruct (radius_of covalent_radii (type atom_j)) as [b|e4] eqn:Hb; simpl;
    [|intros [= <-]; right; eexists; by eapply radius_of_Raise].
  destruct (_ <? _)%float; [destruct color|]; done.
Qed.

Section GuessBonds.

Variable kdtree : Type.
Variable cKDTree : list point → Z → kdtree.
Variable query_pairs : kdtree → float → list (Z * Z).
Variable atom_data_RCov : gmap string float.

(** C8: [guess_bonds] raises its [ValueError] when the index of the table
    is not [[0, 1, ..., N-1]], and only then; with that index the result is
    the one of the loop over the pairs of the spatial index. *)
Theorem guess_bonds_checks_index atoms_df covalent_radii threshold max_length
    radius transparency color :
  let outcome :=
    guess_bonds cKDTree query_pairs atom_data_RCov atoms_df covalent_radii
                threshold max_length radius transparency color in
  let radii := default atom_data_RCov covalent_radii in
  (atoms_df.*1 ≠ range (length atoms_df) →
   outcome
   = Raise (ValueError
              "the index for atoms_df must be in order, i.e. [0,1,2,...]"))
  ∧ (atoms_df.*1 = range (length atoms_df) →
     outcome
     = for_result (query_pairs (cKDTree (xyz <$> atoms_df.*2) 16) max_length)
         (guess_bond atoms_df.*2 radii threshold radius transparency color)
         [])
  ∧ ((∃ msg, outcome = Raise (ValueError msg))
     ↔ atoms_df.*1 ≠ range (length atoms_df)).
Proof.
  intros outcome radii. subst outcome. unfold guess_bonds.
  assert (Hradii : match covalent_radii with
                   | Some r => r
                   | None => atom_data_RCov
                   end = radii) by (by destruct covalent_radii).
  rewrite Hradii. case_decide as Hindex.
  - split; [done|]. split; [done|]. split; [done|by eexists].
  - split; [done|]. split; [done|]. split; [|done].
    intros [msg Hmsg]. apply for_result_Raise in Hmsg as (s & a & _ & Hr).
    apply guess_bond_Raise in Hr as [Hr|[t Hr]]; done.
Qed.

End GuessBonds.

(** The scenario of the specification: four atoms of type [X]. *)
Definition four_atoms : list (Z * atom) :=
  [ (0, Atom 2 3 4 "X" "grey"); (1, Atom 1 3 3 "X" "grey");
    (2, Atom 4 3 1 "X" "grey"); (3, Atom 3 4 1 "X" "grey") ].

Definition radius_X : gmap string float := {[ "X" := 1%float ]}.

(** C6: on the scenario every pair of atoms is within the maximal length;
    [guess_bonds] returns the two pairs at distance [sqrt 2], which is below
    [2*1.0+0.1], although no pair is at a distance between [2*1.0-0.1] and
    [2*1.0+0.1]. *)
Theorem guess_bonds_four_atoms :
  let within d := ((2 * 1.0 - 0.1 <=? d) && (d <=? 2 * 1.0 + 0.1))%float in
  let points := xyz <$> four_atoms.*2 in
  brute_query_pairs points 5
  = [(0, 1); (0, 2); (0, 3); (1, 2); (1, 3); (2, 3)]
  ∧ guess_bonds (λ points _, points) brute_query_pairs ∅ four_atoms
                (Some radius_X) 0.1 5 0.1 1 None
    = Ok [ Bond 0 1 (PrimFloat.sqrt 2) 0.1 "grey" "grey" 1;
           Bond 2 3 (PrimFloat.sqrt 2) 0.1 "grey" "grey" 1 ]
  ∧ List.filter
      (λ ij, within (distance (points !!! Z.to_nat ij.1)
                              (points !!! Z.to_nat ij.2)))
      (brute_query_pairs points 5)
    = [].
Proof. by vm_compute. Qed.

(** ** Progress reports and outcomes *)

Lemma returns_ret {A} (a : A) : returns (mret a) (Ok a).
Proof. by intros out. Qed.

Lemma returns_lift {A} (r : result A) : returns (lift r) r.
Proof. by intros out. Qed.

Lemma returns_print line : returns (print line) (Ok tt).
Proof. by intros out. Qed.

Lemma returns_clear_output : returns clear_output (Ok tt).
Proof. by intros out. Qed.

Lemma returns_bind {A B} (m : io A) (f : A → io B) r (g : A → result B) :
  returns m r → (∀ a, r = Ok a → returns (f a) (g a)) →
  returns (m ≫= f) (r ≫= g).
Proof.
  intros Hm Hf out. unfold mbind at 1, io_bind. specialize (Hm out).
  destruct (m out) as [[a|e] out']; simpl in Hm; subst r; simpl; [|done].
  by apply Hf.
Qed.

Lemma returns_bind_Ok {A} (m : io A) (f : A → io A) r :
  returns m r → (∀ a, returns (f a) (Ok a)) → returns (m ≫= f) r.
Proof.
  intros Hm Hf out. unfold mbind, io_bind. specialize (Hm out).
  destruct (m out) as [[a|e] out']; simpl in Hm; subst r; [|done].
  apply Hf.
Qed.

(** A statement that only prints does not change the outcome of what
    follows. *)
Lemma returns_seq {B} (m : io unit) (k : io B) r :
  returns m (Ok tt) → returns k r → returns (m;; k) r.
Proof.
  intros Hm Hk.
  by apply (returns_bind m (λ _, k) (Ok tt) (λ _, r)).
Qed.

Lemma returns_when flag body :
  returns body (Ok tt) → returns (when flag body) (Ok tt).
Proof. intros H. destruct flag; [done|apply returns_ret]. Qed.

Lemma returns_for_io {A S} (l : list A) (body : S → A → io S)
    (body' : S → A → result S) :
  (∀ s a, returns (body s a) (body' s a)) →
  ∀ s, returns (for_io l body s) (for_result l body' s).
Proof.
  intros Hbody. induction l as [|a l IH]; intros s; simpl.
  - apply returns_ret.
  - apply returns_bind; [apply Hbody|]. intros s' _. apply IH.
Qed.

(** ** The assertion on the self-query *)

(** Recording a row raises for an empty row or for a first distance that
    is not zero. *)
Lemma record_neighbours_cases nn_ids row :
  match row.1 with
  | [] => record_neighbours nn_ids row = Raise IndexError
  | d0 :: _ =>
      if (d0 =? 0)%float then
        match row.2 with
        | [] => record_neighbours nn_ids row = Raise IndexError
        | _ :: _ => ∃ nn_ids', record_neighbours nn_ids row = Ok nn_ids'
        end
      else record_neighbours nn_ids row = Raise AssertionError
  end.
Proof.
  destruct row as [[|d0 dists] ids]; simpl; [done|].
  destruct (d0 =? 0)%float; [|done]. destruct ids; [done|by eexists].
Qed.

(** A row whose first distance is not zero stops the loop. *)
Lemma neighbour_dictionary_stops rows : ∀ nn_ids,
  (∃ row d0 dists,
     row ∈ rows ∧ row.1 = d0 :: dists ∧ (d0 =? 0)%float = false) →
  (∃ e, for_result rows record_neighbours nn_ids = Raise e
        ∧ (e = AssertionError ∨ e = IndexError))
  ∧ ((∀ row, row ∈ rows → row.1 ≠ [] ∧ row.2 ≠ []) →
     for_result rows record_neighbours nn_ids = Raise AssertionError).
Proof.
  induction rows as [|row rows IH]; intros nn_ids (bad & d0 & dists & Hin & Hd & H0).
  { by apply elem_of_nil in Hin. }
  simpl. pose proof (record_neighbours_cases nn_ids row) as Hrow.
  apply elem_of_cons in Hin as [<-|Hin].
  { rewrite Hd, H0 in Hrow. rewrite Hrow. simpl. split; [|done].
    eexists. split; [done|by left]. }
  destruct (row.1) as [|d0' dists'] eqn:Hd'.
  { rewrite Hrow. simpl. split; [eexists; split; [done|by right]|].
    intros Hwf. destruct (Hwf row) as [Hne _]; [apply elem_of_cons; by left|].
    done. }
  destruct (d0' =? 0)%float.
  2:{ rewrite Hrow. simpl. split; [|done]. eexists. split; [done|by left]. }
  destruct (row.2) as [|id0 ids] eqn:Hids.
  { rewrite Hrow. simpl. split; [eexists; split; [done|by right]|].
    intros Hwf. destruct (Hwf row) as [_ Hne]; [apply elem_of_cons; by left|].
    done. }
  destruct Hrow as [nn_ids' ->]. simpl.
  destruct (IH nn_ids') as [Hraise Hassert]; [by exists bad, d0, dists|].
  split; [done|]. intros Hwf. apply Hassert. intros r Hr.
  apply Hwf, elem_of_cons. by right.
Qed.

(** When every row starts with the distance zero the assertion holds. *)
Lemma neighbour_dictionary_asserts rows nn_ids :
  (∀ row, row ∈ rows →
          ∃ d0 dists, row.1 = d0 :: dists ∧ (d0 =? 0)%float = true) →
  for_result rows record_neighbours nn_ids ≠ Raise AssertionError.
Proof.
  intros Hrows Hraise.
  apply for_result_Raise in Hraise as (nn_ids' & row & Hin & Hr).
  destruct (Hrows row Hin) as (d0 & dists & Hd & H0).
  pose proof (record_neighbours_cases nn_ids' row) as Hrow.
  rewrite Hd, H0 in Hrow. destruct (row.2).
  - rewrite Hrow in Hr. done.
  - destruct Hrow as [? Hrow]. rewrite Hrow in Hr. done.
Qed.

Lemma getitem_Raise {A} (d : gmap Z A) k e :
  getitem d k = Raise e → e = KeyError (IntKey k).
Proof. unfold getitem. destruct (d !! k); [done|by intros [= <-]]. Qed.

(** A signature raises for a missing key only. *)
Lemma signature_Raise nn_ids nns nn e :
  signature nn_ids nns nn = Raise e → ∃ id, e = KeyError (IntKey id).
Proof.
  unfold signature, common_neighbours.
  destruct (getitem nn_ids nn) as [ids|e1] eqn:Hnn; simpl;
    [|intros [= <-]; eexists; by eapply getitem_Raise].
  destruct (neighbour_bonds nn_ids _) as [nn_bonds|e2] eqn:Hb; simpl; [done|].
  intros [= <-]. apply for_result_Raise in Hb as (acc & c & _ & Hc).
  destruct (getitem nn_ids c) as [ids'|e3] eqn:Hg; simpl in Hc; [done|].
  injection Hc as <-. eexists. by eapply getitem_Raise.
Qed.

(** After the neighbour dictionary nothing raises an [AssertionError]. *)
Lemma cna_table_assertion atoms_df rows :
  cna_table atoms_df rows = Raise AssertionError →
  neighbour_dictionary rows = Raise AssertionError.
Proof.
  unfold cna_table. cbv zeta.
  destruct (neighbour_dictionary rows) as [nn_ids|e] eqn:Hnn; simpl;
    [|by intros [= <-]].
  match goal with |- context [for_result ?l ?body ?s] =>
    destruct (for_result l body s) as [jkls|e] eqn:Hloop end; simpl.
  - unfold set_column. case_decide; done.
  - intros [= ->]. apply for_result_Raise in Hloop as (jkls & entry & _ & Hr).
    case_decide; [done|].
    destruct (signatures nn_ids entry.2) as [sigs|e] eqn:Hs; simpl in Hr;
      [done|]. injection Hr as ->.
    apply for_result_Raise in Hs as (acc & nn & _ & Hsig).
    destruct (signature nn_ids entry.2 nn) as [jkl|e] eqn:Hj; simpl in Hsig;
      [done|]. injection Hsig as ->.
    apply signature_Raise in Hj as [key Hkey]. done.
Qed.

Section Progress.

Variable kdtree : Type.
Variable cKDTree : list point → Z → kdtree.
Variable query : kdtree → list point → Z → float → Z → list knn_row.
Variable query_pairs : kdtree → float → list (Z * Z).
Variable periodic_images : bool → list atom → lattice_meta → list atom.
Variable series_min series_max : list float → float.
Variable mgrid : float * float → float * float → float * float → float
                 → result (list point).

(** The rows of the self-query of [common_neighbour_analysis], where it
    comes to the query. *)
Definition self_query (atoms_df : list atom) (upper_bound : float)
    (max_neighbours : Z) (repeat_meta : option lattice_meta) (leafsize : Z)
    : result (list knn_row) :=
  lattice_df ← match repeat_meta with
               | Some meta =>
                   instantiate;;
                   repeated periodic_images {["original_first"]} atoms_df
                            meta
               | None => Ok atoms_df
               end;
  Ok (query (cKDTree (xyz <$> lattice_df) leafsize) (xyz <$> lattice_df)
            (max_neighbours + 1) upper_bound 1).

(** The periodic images are never built: the analysis raises [TypeError]
    when [repeat_meta] is given. *)
Lemma self_query_cases atoms_df upper_bound max_neighbours repeat_meta
    leafsize :
  self_query atoms_df upper_bound max_neighbours repeat_meta leafsize
  = match repeat_meta with
    | Some _ => Raise TypeError
    | None =>
        Ok (query (cKDTree (xyz <$> atoms_df) leafsize) (xyz <$> atoms_df)
                  (max_neighbours + 1) upper_bound 1)
    end.
Proof. by destruct repeat_meta. Qed.

(** Whether it reports its progress or not, [common_neighbour_analysis] ends
    with the table of the rows of its self-query. *)
Lemma common_neighbour_analysis_returns atoms_df upper_bound max_neighbours
    repeat_meta leafsize ipython_progress :
  returns
    (common_neighbour_analysis cKDTree query periodic_images atoms_df
       upper_bound max_neighbours repeat_meta leafsize ipython_progress)
    (self_query atoms_df upper_bound max_neighbours repeat_meta leafsize
     ≫= cna_table atoms_df).
Proof.
  unfold common_neighbour_analysis, self_query. cbv zeta.
  match goal with |- returns (lift ?r ≫= _) _ => set (lattice := r) end.
  assert (Hbind : ∀ f : list atom → list knn_row,
    (lattice ≫= λ lattice_df, Ok (f lattice_df)) ≫= cna_table atoms_df
    = lattice ≫= λ lattice_df, cna_table atoms_df (f lattice_df))
    by (intros f; by destruct lattice).
  rewrite Hbind.
  apply returns_bind; [apply returns_lift|]. intros lattice_df _.
  unfold cna_table. cbv zeta.
  apply returns_seq; [apply returns_when, returns_print|].
  apply returns_bind; [apply returns_lift|]. intros nn_ids _.
  apply returns_bind.
  { apply returns_for_io. intros jkls [lid nns]. unfold assess. simpl.
    case_decide; [apply returns_ret|].
    apply returns_seq.
    { apply returns_when, returns_seq;
        [apply returns_clear_output|apply returns_print]. }
    apply returns_bind; [apply returns_lift|]. intros jkls_lid _.
    apply returns_ret. }
  intros jkls _.
  apply returns_bind_Ok; [apply returns_lift|].
  intros df. apply returns_seq; [apply returns_when, returns_clear_output|].
  apply returns_ret.
Qed.

(** C7: if the self-query of some lattice point does not start with the
    distance zero, [common_neighbour_analysis] raises and returns no table,
    and what it raises is the [AssertionError] as soon as no row is empty;
    if the self-query of every lattice point starts with the distance zero,
    it does not raise an [AssertionError].  Where the analysis does not come
    to the query, which is when [repeat_meta] is given, it raises
    [TypeError]. *)
Theorem cna_asserts_self_distance atoms_df upper_bound max_neighbours
    repeat_meta leafsize ipython_progress out :
  let outcome :=
    (common_neighbour_analysis cKDTree query periodic_images atoms_df
       upper_bound max_neighbours repeat_meta leafsize ipython_progress
       out).1 in
  match
    self_query atoms_df upper_bound max_neighbours repeat_meta leafsize
  with
  | Ok rows =>
      ((∃ row d0 dists,
          row ∈ rows ∧ row.1 = d0 :: dists ∧ (d0 =? 0)%float = false) →
       (∃ e, outcome = Raise e ∧ (e = AssertionError ∨ e = IndexError))
       ∧ ((∀ row, row ∈ rows → row.1 ≠ [] ∧ row.2 ≠ []) →
          outcome = Raise AssertionError))
      ∧ ((∀ row, row ∈ rows →
                 ∃ d0 dists, row.1 = d0 :: dists ∧ (d0 =? 0)%float = true) →
         outcome ≠ Raise AssertionError)
  | Raise e => outcome = Raise e ∧ e = TypeError ∧ is_Some repeat_meta
  end.
Proof.
  intros outcome.
  assert (Houtcome :
    outcome
    = self_query atoms_df upper_bound max_neighbours repeat_meta leafsize
      ≫= cna_table atoms_df)
    by apply common_neighbour_analysis_returns.
  rewrite Houtcome. clear Houtcome outcome. rewrite self_query_cases.
  destruct repeat_meta as [meta|]; [done|].
  set (rows := query _ _ _ _ _). cbn [mbind result_bind]. split.
  - intros Hbad.
    destruct (neighbour_dictionary_stops rows ∅ Hbad) as [(e & He & Hcase) Hwf].
    unfold cna_table, neighbour_dictionary. cbv zeta. split.
    + exists e. by rewrite He.
    + intros Hrows. by rewrite (Hwf Hrows).
  - intros Hgood Hraise. apply cna_table_assertion in Hraise.
    by apply (neighbour_dictionary_asserts rows ∅ Hgood).
Qed.

(** The spatial index gives the same answer with any number of jobs. *)
Hypothesis query_jobs :
  ∀ tree points k distance_upper_bound n_jobs n_jobs',
    query tree points k distance_upper_bound n_jobs
    = query tree points k distance_upper_bound n_jobs'.

(** C9: two runs of [common_neighbour_analysis] that differ in the progress
    reports, and two runs of [vacancy_identification] that differ in the
    progress reports and in the number of jobs, return the same table. *)
Theorem tables_independent_of_progress_and_jobs :
  (∀ atoms_df upper_bound max_neighbours repeat_meta leafsize
     progress progress' out out',
     (common_neighbour_analysis cKDTree query periodic_images atoms_df
        upper_bound max_neighbours repeat_meta leafsize progress out).1
     = (common_neighbour_analysis cKDTree query periodic_images atoms_df
          upper_bound max_neighbours repeat_meta leafsize progress' out').1)
  ∧ (∀ atoms_df res nn_dist repeat_meta remove_dups color transparency
       radius type_name leafsize n_jobs n_jobs' progress progress' out out',
       (vacancy_identification cKDTree query query_pairs periodic_images
          series_min series_max mgrid atoms_df res nn_dist repeat_meta
          remove_dups color transparency radius type_name leafsize
          n_jobs progress out).1
       = (vacancy_identification cKDTree query query_pairs periodic_images
            series_min series_max mgrid atoms_df res nn_dist repeat_meta
            remove_dups color transparency radius type_name leafsize
            n_jobs' progress' out').1).
Proof.
  split.
  - intros. by rewrite !common_neighbour_analysis_returns.
  - intros. unfold vacancy_identification. cbv zeta.
    unfold mbind at 1 9, io_bind, lift.
    destruct (mgrid _ _ _ _) as [grid|e]; [|done].
    unfold mbind at 1 8, io_bind.
    destruct repeat_meta as [meta|]; [done|].
    rewrite (query_jobs _ _ _ _ n_jobs n_jobs').
    by destruct progress, progress'.
Qed.

End Progress.

(** *** The analyses on a brute-force index *)

Definition brute_tree (points : list point) (leafsize : Z) : list point :=
  points.

Definition no_images (original_first : bool) (atoms : list atom)
    (meta : lattice_meta) : list atom :=
  atoms.

Definition float_min (l : list float) : float :=
  foldr (λ a b, if (a <? b)%float then a else b) infinity l.

Definition float_max (l : list float) : float :=
  foldr (λ a b, if (b <? a)%float then a else b) neg_infinity l.

(** The two corners of the box, for a grid. *)
Definition corners (xs ys zs : float * float) (res : float)
    : result (list point) :=
  Ok [(xs.1, ys.1, zs.1); (xs.2, ys.2, zs.2)].

(** Four atoms at the corners of a regular tetrahedron of edge [sqrt 2]. *)
Definition tetrahedron : list atom :=
  [ Atom 0 0 0 "X" "red"; Atom 1 1 0 "X" "red"; Atom 1 0 1 "X" "red";
    Atom 0 1 1 "X" "red" ].

(** Every atom of the tetrahedron has three neighbours; each of them shares
    the two others, which are bonded: three times the signature [2,1,1]. *)
Example cna_tetrahedron :
  (common_neighbour_analysis brute_tree brute_query no_images tetrahedron
     4 24 None 100 false []).1
  = Ok ((λ a, (a, {[ "2,1,1" := 3 ]})) <$> tetrahedron).
Proof. by vm_compute. Qed.

(** With the upper bound [0] no lattice point finds itself: the assertion
    fails. *)
Example cna_assertion_fails :
  (common_neighbour_analysis brute_tree brute_query no_images tetrahedron
     0 24 None 100 false []).1
  = Raise AssertionError.
Proof. by vm_compute. Qed.

(** A subject atom at the origin among four lattice atoms, two of them at
    distance one: [coordination] raises before it counts them. *)
Example coordination_square :
  coordination brute_tree brute_query no_images [Atom 0 0 0 "X" "red"]
    [ Atom 0 0 0 "X" "red"; Atom 1 0 0 "X" "red"; Atom 0 1 0 "X" "red";
      Atom 5 0 0 "X" "red" ]
    4 16 None 0.01 100
  = Raise TypeError.
Proof. reflexivity. Qed.

Lemma tables_independent_witness :
  (common_neighbour_analysis brute_tree brute_query no_images tetrahedron
     4 24 None 100 true []).1
  = (common_neighbour_analysis brute_tree brute_query no_images tetrahedron
       4 24 None 100 false [Print "earlier output"]).1
  ∧ (vacancy_identification brute_tree brute_query brute_query_pairs
       no_images float_min float_max corners tetrahedron 0.2 2 None true
       "red" 1 1 "Vac" 100 1 true []).1
    = (vacancy_identification brute_tree brute_query brute_query_pairs
         no_images float_min float_max corners tetrahedron 0.2 2 None true
         "red" 1 1 "Vac" 100 4 false []).1.
Proof.
  destruct (tables_independent_of_progress_and_jobs
              (list point) brute_tree brute_query brute_query_pairs no_images
              float_min float_max corners)
    as [Hcna Hvac].
  - reflexivity.
  - split; [apply Hcna|apply Hvac].
Defined.

(** * Part III: further properties of the code *)

(** ** The adjacency map and the search *)

Lemma total_entries_setdefault_append k v tree :
  total_entries (setdefault_append k v tree) = S (total_entries tree).
Proof.
  unfold setdefault_append. destruct (tree !! k) as [nodes|] eqn:Hk; simpl.
  - pose proof (total_entries_insert tree k nodes (nodes ++ [v]) Hk) as H.
    rewrite length_app in H. simpl in H. lia.
  - unfold total_entries. rewrite map_fold_insert_L; [done| |done].
    intros. lia.
Qed.

Lemma total_entries_createTree_from edges : ∀ tree0,
  total_entries
    (fold_left (λ tree '(v1, v2),
                  setdefault_append v2 v1 (setdefault_append v1 v2 tree))
               edges tree0)
  = (2 * length edges + total_entries tree0)%nat.
Proof.
  induction edges as [|[v1 v2] edges IH]; intros tree0; simpl; [done|].
  rewrite IH, !total_entries_setdefault_append. lia.
Qed.

(** The map built from a list of edges has the end points of the edges as
    its keys, lists [v] under [u] exactly when [u] and [v] are the two ends
    of an edge, in either order, is therefore symmetric, and holds two
    entries for every edge of the list. *)
Theorem createTree_is_the_symmetric_graph edges :
  let tree := _createTreeFromEdges edges in
  (∀ u, is_Some (tree !! u) ↔ u ∈ edges.*1 ∨ u ∈ edges.*2)
  ∧ (∀ u v, adjacent tree u v ↔ (u, v) ∈ edges ∨ (v, u) ∈ edges)
  ∧ (∀ u v, adjacent tree u v ↔ adjacent tree v u)
  ∧ total_entries tree = (2 * length edges)%nat.
Proof.
  intros tree. subst tree. split; [|split; [|split]].
  - intros u. rewrite is_Some_createTree. unfold graph_nodes.
    apply elem_of_app.
  - intros u v. apply adjacent_createTree.
  - intros u v. rewrite !adjacent_createTree. unfold bonded. tauto.
  - unfold _createTreeFromEdges. rewrite total_entries_createTree_from.
    unfold total_entries. rewrite map_fold_empty. lia.
Qed.

Lemma walk_nodes edges : ∀ w previous,
  walk edges previous w → ∀ v, v ∈ w → v ∈ graph_nodes edges.
Proof.
  induction w as [|u w IH]; intros previous Hw v Hv; [done|].
  destruct w as [|u' w].
  - apply list_elem_of_singleton in Hv as ->. exact Hw.
  - destruct Hw as (Hb & _ & Hw). apply elem_of_cons in Hv as [->|Hv].
    + unfold graph_nodes. apply elem_of_app.
      destruct Hb as [Hb|Hb]; [left|right];
        apply list_elem_of_fmap; by eexists (_, _).
    + by eapply IH.
Qed.

(** The path returned from a node of the graph, read from its end, is an
    unbroken chain that starts at that node, and no unbroken chain from
    that node has more nodes. *)
Theorem longest_path_is_a_longest_chain edges start :
  start ∈ graph_nodes edges →
  let path := _longest_path start (_createTreeFromEdges edges) None in
  chain edges (reverse path)
  ∧ head (reverse path) = Some start
  ∧ ∀ w, chain edges (start :: w) → (length (start :: w) ≤ length path)%nat.
Proof.
  intros Hstart path. subst path.
  apply is_Some_createTree in Hstart.
  destruct (longest_path_sound _ start None Hstart) as (w & Hw & Hp).
  rewrite Hp, reverse_involutive. split; [by apply unbroken_createTree|].
  split; [done|]. intros w' Hw'. rewrite <- Hp.
  apply longest_path_complete. by apply unbroken_createTree.
Qed.

(** The graph of the docstrings: a square and a separate bond. *)
Definition square_and_bond : list (Z * Z) :=
  [(1, 2); (0, 1); (2, 3); (8, 9); (0, 3)].

Lemma longest_path_is_a_longest_chain_witness :
  let path := _longest_path 0 (_createTreeFromEdges square_and_bond) None in
  chain square_and_bond (reverse path)
  ∧ head (reverse path) = Some 0
  ∧ ∀ w, chain square_and_bond (0 :: w) → (length (0%Z :: w) ≤ length path)%nat.
Proof.
  apply (longest_path_is_a_longest_chain square_and_bond 0).
  unfold graph_nodes, square_and_bond. simpl.
  rewrite !elem_of_cons. auto.
Defined.

(** ** Bounds on the signature *)

(** The bonds a sequence of nodes runs through, each in its sorted form. *)
Fixpoint steps (w : list Z) : list (Z * Z) :=
  match w with
  | [] => []
  | u :: rest =>
      match rest with
      | [] => []
      | v :: _ => sorted_pair u v :: steps rest
      end
  end.

Lemma length_steps w : Z.of_nat (length (steps w)) = Z.max 0 (edge_count w).
Proof.
  unfold edge_count. induction w as [|u [|v w] IH]; [done|done|].
  change (steps (u :: v :: w)) with (sorted_pair u v :: steps (v :: w)).
  cbn [length] in *. lia.
Qed.

Lemma length_removelast (w : list Z) :
  length (removelast w) = (length w - 1)%nat.
Proof.
  induction w as [|u [|v w] IH]; [done|done|].
  change (removelast (u :: v :: w)) with (u :: removelast (v :: w)).
  cbn [length] in *. lia.
Qed.

Lemma elem_of_removelast (w : list Z) v : v ∈ removelast w → v ∈ w.
Proof.
  induction w as [|u [|u' w] IH]; [done|by intros ?%elem_of_nil|].
  change (removelast (u :: u' :: w)) with (u :: removelast (u' :: w)).
  rewrite !(elem_of_cons _ v u). intros [->|Hv]; [by left|right; by apply IH].
Qed.

Lemma sorted_pair_eq a b x y :
  sorted_pair a b = sorted_pair x y → (a = x ∧ b = y) ∨ (a = y ∧ b = x).
Proof. unfold sorted_pair. intros [= H1 H2]. lia. Qed.

Lemma sorted_pair_comm a b : sorted_pair a b = sorted_pair b a.
Proof. unfold sorted_pair. f_equal; lia. Qed.

Lemma steps_elem w p :
  p ∈ steps w → ∃ x y, p = sorted_pair x y ∧ x ∈ removelast w.
Proof.
  induction w as [|u [|v w] IH]; [by intros ?%elem_of_nil..|].
  change (steps (u :: v :: w)) with (sorted_pair u v :: steps (v :: w)).
  change (removelast (u :: v :: w)) with (u :: removelast (v :: w)).
  intros [->|Hp]%elem_of_cons.
  - exists u, v. split; [done|]. apply elem_of_cons. by left.
  - destruct (IH Hp) as (x & y & -> & Hx). exists x, y. split; [done|].
    apply elem_of_cons. by right.
Qed.

Lemma steps_bonded edges : ∀ w previous,
  walk edges previous w →
  ∀ p, p ∈ steps w → p ∈ (λ e : Z * Z, sorted_pair e.1 e.2) <$> edges.
Proof.
  induction w as [|u [|v w] IH]; intros previous Hw p;
    [by intros ?%elem_of_nil..|].
  change (steps (u :: v :: w)) with (sorted_pair u v :: steps (v :: w)).
  destruct Hw as (Hb & _ & Hw). intros [->|Hp]%elem_of_cons; [|by eapply IH].
  apply list_elem_of_fmap. destruct Hb as [Hb|Hb].
  - by exists (u, v).
  - exists (v, u). split; [apply sorted_pair_comm|done].
Qed.

(** An unbroken chain runs through no bond twice. *)
Lemma steps_NoDup edges : ∀ w previous,
  walk edges previous w → NoDup (removelast w) → NoDup (steps w).
Proof.
  induction w as [|u [|v w] IH]; intros previous Hw Hnd; [constructor..|].
  change (steps (u :: v :: w)) with (sorted_pair u v :: steps (v :: w)).
  change (removelast (u :: v :: w)) with (u :: removelast (v :: w)) in Hnd.
  apply NoDup_cons in Hnd as [Hu Hnd]. destruct Hw as (Hb & Hne & Hw).
  apply NoDup_cons. split; [|by eapply IH].
  destruct w as [|b w]; [by intros ?%elem_of_nil|].
  change (steps (v :: b :: w)) with (sorted_pair v b :: steps (b :: w)).
  change (removelast (v :: b :: w)) with (v :: removelast (b :: w)) in *.
  apply NoDup_cons in Hnd as [Hv Hnd]. destruct Hw as (_ & Hback & _).
  intros [Heq|Hin]%elem_of_cons.
  - apply sorted_pair_eq in Heq as [[-> _]|[-> _]].
    + apply Hu, elem_of_cons. by left.
    + done.
  - apply steps_elem in Hin as (x & y & Heq & Hx).
    apply sorted_pair_eq in Heq as [[-> _]|[_ ->]].
    + apply Hu, elem_of_cons. by right.
    + done.
Qed.

Lemma chain_at_most_edges edges w :
  chain edges w → edge_count w ≤ Z.of_nat (length edges).
Proof.
  intros [Hw Hnd]. pose proof (length_steps w) as Hlen.
  assert (length (steps w) ≤ length edges)%nat; [|lia].
  rewrite <- (length_fmap (λ e : Z * Z, sorted_pair e.1 e.2) edges).
  apply submseteq_length, NoDup_submseteq; [by eapply steps_NoDup|].
  by eapply steps_bonded.
Qed.

Lemma chain_at_most_nodes edges w (nodes : gset Z) :
  (∀ v, v ∈ graph_nodes edges → v ∈ nodes) →
  chain edges w → edge_count w ≤ Z.of_nat (size nodes).
Proof.
  intros Hnodes [Hw Hnd]. unfold edge_count.
  assert (length (removelast w) ≤ size nodes)%nat as Hle.
  { unfold size, set_size. simpl.
    apply submseteq_length, NoDup_submseteq; [done|].
    intros v Hv. apply elem_of_elements, Hnodes.
    eapply walk_nodes; [done|]. by apply elem_of_removelast. }
  rewrite length_removelast in Hle. lia.
Qed.

Lemma longest_chain_nonneg edges : 0 ≤ longest_chain edges.
Proof.
  rewrite longest_chain_eq.
  match goal with |- _ ≤ py_max (?x :: ?l) =>
    destruct (py_max_spec x l) as [_ Hmax] end.
  apply Hmax, elem_of_cons. by left.
Qed.

Lemma longest_chain_positive edges : edges ≠ [] → 1 ≤ longest_chain edges.
Proof.
  destruct edges as [|[v1 v2] edges]; [done|]. intros _.
  etrans; [|apply (longest_chain_upper _ [v1; v2])]; [done|].
  split; [|apply NoDup_singleton]. simpl. split; [|split; [done|]].
  - left. apply elem_of_cons. by left.
  - apply graph_nodes_cons. auto.
Qed.

(** In every signature [0 <= l <= j] and [l <= k]: the longest chain visits
    no shared neighbour twice before it ends and runs through no bond
    twice; [l] is [0] exactly when there is no bond; and [j] is at most the
    number of neighbours of the atom. *)
Theorem signature_bounds nn_ids nns nn ids :
  nn_ids !! nn = Some ids →
  (∀ c, c ∈ nns → c ∈ ids → is_Some (nn_ids !! c)) →
  ∃ j k l,
    signature nn_ids nns nn = Ok (j, k, l)
    ∧ 0 ≤ l ∧ l ≤ j ∧ l ≤ k ∧ (l = 0 ↔ k = 0)
    ∧ j ≤ Z.of_nat (length nns).
Proof.
  intros Hnn Hkeys.
  destruct (signature_Ok nn_ids nns nn ids Hnn Hkeys)
    as (nn_bonds & _ & Hsig & Hnd & Hin).
  eexists _, _, _. split; [exact Hsig|].
  assert (Hl0 := longest_chain_nonneg nn_bonds).
  assert (Hupper : ∀ n, (∀ w, chain nn_bonds w → edge_count w ≤ n) → 0 ≤ n →
                        longest_chain nn_bonds ≤ n).
  { intros n Hn Hn0. destruct nn_bonds as [|e es] eqn:He; [done|].
    destruct (longest_chain_attained (e :: es)) as (w & Hw & <-); [done|].
    by apply Hn. }
  split; [done|]. split; [|split; [|split; [split|]]].
  - apply Hupper; [|lia]. intros w. apply chain_at_most_nodes.
    intros v Hv. unfold graph_nodes in Hv.
    apply elem_of_app in Hv as [Hv|Hv];
      apply list_elem_of_fmap in Hv as ([c d] & -> & Hcd);
      apply Hin in Hcd as (_ & [? ?] & [? ?] & _);
      apply elem_of_intersection; by rewrite !elem_of_list_to_set.
  - apply Hupper; [|lia]. intros w. apply chain_at_most_edges.
  - intros Hl. destruct nn_bonds as [|e es]; [done|].
    pose proof (longest_chain_positive (e :: es) ltac:(done)). lia.
  - intros Hk. destruct nn_bonds; [done|simpl in Hk; lia].
  - apply inj_le. unfold size, set_size. simpl.
    apply submseteq_length, NoDup_submseteq; [apply NoDup_elements|].
    intros c [_ Hc%elem_of_list_to_set]%elem_of_elements%elem_of_intersection.
    done.
Qed.

Lemma signature_bounds_witness :
  ∃ j k l,
    signature clique5 [1; 2; 3; 4] 1 = Ok (j, k, l)
    ∧ 0 ≤ l ∧ l ≤ j ∧ l ≤ k ∧ (l = 0 ↔ k = 0)
    ∧ j ≤ Z.of_nat (length [1; 2; 3; 4]).
Proof.
  apply (signature_bounds clique5 [1; 2; 3; 4] 1 [0; 2; 3; 4]).
  - reflexivity.
  - exact clique5_keys.
Defined.

(** ** The bonds that are reported *)

(** The bond that [guess_bonds] reports for the atoms [atom_i] and
    [atom_j] at the positions [i] and [j]. *)
Definition reported_bond (radius transparency : float) (c : option string)
    (i j : Z) (atom_i atom_j : atom) : bond :=
  Bond i j (distance (xyz atom_i) (xyz atom_j)) radius
       (default (color atom_i) c) (default (color atom_j) c) transparency.

(** The test of [guess_bonds] on two atoms of radii [a] and [b]. *)
Definition below_threshold (threshold a b : float) (atom_i atom_j : atom)
    : bool :=
  (squared_distance (xyz atom_i) (xyz atom_j)
   <? (a + b + threshold) * (a + b + threshold))%float.

Definition bond_ends (b : bond) : Z * Z := (bond_start b, bond_end b).

Lemma item_Ok {A} (a : list A) i :
  0 ≤ i < Z.of_nat (length a) → ∃ v, item a i = Ok v.
Proof.
  intros Hi. unfold item. case_decide; [lia|].
  destruct (a !! Z.to_nat i) eqn:Hl; [by eexists|].
  apply lookup_ge_None in Hl. lia.
Qed.

Lemma item_Ok_range {A} (a : list A) i v :
  item a i = Ok v → 0 ≤ i < Z.of_nat (length a).
Proof.
  unfold item. case_decide; [done|].
  destruct (a !! Z.to_nat i) eqn:Hl; [|done]. intros _.
  apply lookup_lt_Some in Hl. lia.
Qed.

(** One turn of the loop, when it does not raise. *)
Lemma guess_bond_Ok atoms radii threshold radius transparency c bonds i j
    bonds' :
  guess_bond atoms radii threshold radius transparency c bonds (i, j)
  = Ok bonds' →
  ∃ atom_i atom_j a b,
    item atoms i = Ok atom_i ∧ item atoms j = Ok atom_j
    ∧ radii !! type atom_i = Some a ∧ radii !! type atom_j = Some b
    ∧ bonds'
      = if below_threshold threshold a b atom_i atom_j
        then bonds ++ [reported_bond radius transparency c i j atom_i atom_j]
        else bonds.
Proof.
  unfold guess_bond, radius_of, below_threshold, reported_bond.
  destruct (item atoms i) as [atom_i|] eqn:Hi; simpl; [|done].
  destruct (radii !! type atom_i) as [a|] eqn:Ha; simpl; [|done].
  destruct (item atoms j) as [atom_j|] eqn:Hj; simpl; [|done].
  destruct (radii !! type atom_j) as [b|] eqn:Hb; simpl; [|done].
  intros H. exists atom_i, atom_j, a, b. repeat split; try done.
  destruct (_ <? _)%float; [destruct c|]; simpl in H; by injection H as <-.
Qed.

Lemma guess_bond_total atoms radii threshold radius transparency c bonds i j
    atom_i atom_j a b :
  item atoms i = Ok atom_i → item atoms j = Ok atom_j →
  radii !! type atom_i = Some a → radii !! type atom_j = Some b →
  guess_bond atoms radii threshold radius transparency c bonds (i, j)
  = Ok (if below_threshold threshold a b atom_i atom_j
        then bonds ++ [reported_bond radius transparency c i j atom_i atom_j]
        else bonds).
Proof.
  intros Hi Hj Ha Hb.
  unfold guess_bond, radius_of, below_threshold, reported_bond.
  rewrite Hi. simpl. rewrite Ha. simpl. rewrite Hj. simpl. rewrite Hb. simpl.
  destruct (_ <? _)%float; [destruct c|]; done.
Qed.

(** What a reported bond is: the bond of a pair of the spatial index that
    passes the test of [guess_bonds], which compares the squared distance of
    the two atoms with the square of the sum of their radii and the
    threshold, both as binary64 computes them. *)
Definition reported (atoms : list atom) (radii : gmap string float)
    (threshold radius transparency : float) (c : option string)
    (pairs : list (Z * Z)) (b : bond) : Prop :=
  ∃ i j atom_i atom_j ri rj,
    (i, j) ∈ pairs
    ∧ item atoms i = Ok atom_i ∧ item atoms j = Ok atom_j
    ∧ radii !! type atom_i = Some ri ∧ radii !! type atom_j = Some rj
    ∧ below_threshold threshold ri rj atom_i atom_j = true
    ∧ b = reported_bond radius transparency c i j atom_i atom_j.

Lemma guess_bonds_loop atoms radii threshold radius transparency c pairs :
  ∀ acc bonds,
    for_result pairs
      (guess_bond atoms radii threshold radius transparency c) acc
    = Ok bonds →
    ∃ new,
      bonds = acc ++ new
      ∧ sublist (bond_ends <$> new) pairs
      ∧ Forall (reported atoms radii threshold radius transparency c pairs) new
      ∧ ∀ i j atom_i atom_j ri rj,
          (i, j) ∈ pairs →
          item atoms i = Ok atom_i → item atoms j = Ok atom_j →
          radii !! type atom_i = Some ri → radii !! type atom_j = Some rj →
          below_threshold threshold ri rj atom_i atom_j = true →
          reported_bond radius transparency c i j atom_i atom_j ∈ new.
Proof.
  induction pairs as [|[i j] pairs IH]; intros acc bonds; cbn [for_result].
  { intros [= <-]. exists []. rewrite app_nil_r. repeat split; try done.
    intros ? ? ? ? ? ? H. by apply elem_of_nil in H. }
  destruct (guess_bond atoms radii threshold radius transparency c acc (i, j))
    as [acc'|] eqn:Hstep; simpl; [|done].
  intros Hloop.
  apply guess_bond_Ok in Hstep
    as (atom_i & atom_j & a & b & Hi & Hj & Ha & Hb & ->).
  destruct (IH _ _ Hloop) as (new & -> & Hsub & Hall & Hcomplete).
  assert (Hweak : Forall (reported atoms radii threshold radius transparency c
                            ((i, j) :: pairs)) new).
  { eapply Forall_impl; [exact Hall|].
    intros b' (i' & j' & ai & aj & ri & rj & Hin & H).
    exists i', j', ai, aj, ri, rj. split; [|done]. apply elem_of_cons. by right. }
  destruct (below_threshold threshold a b atom_i atom_j) eqn:Hclose.
  - exists (reported_bond radius transparency c i j atom_i atom_j :: new).
    split; [by rewrite <- app_assoc|]. split; [by apply sublist_skip|].
    split.
    + apply Forall_cons. split; [|done].
      exists i, j, atom_i, atom_j, a, b. repeat split; try done.
      apply elem_of_cons. by left.
    + intros i' j' ai aj ri rj [[= -> ->]|Hin]%elem_of_cons Hi' Hj' Hri Hrj Hc.
      * rewrite Hi in Hi'. rewrite Hj in Hj'.
        injection Hi' as <-. injection Hj' as <-.
        apply elem_of_cons. by left.
      * apply elem_of_cons. right. by eapply Hcomplete.
  - exists new. split; [done|]. split; [by apply sublist_cons|].
    split; [done|].
    intros i' j' ai aj ri rj [[= -> ->]|Hin]%elem_of_cons Hi' Hj' Hri Hrj Hc.
    + rewrite Hi in Hi'. rewrite Hj in Hj'.
      injection Hi' as <-. injection Hj' as <-.
      rewrite Ha in Hri. rewrite Hb in Hrj.
      injection Hri as <-. injection Hrj as <-. congruence.
    + by eapply Hcomplete.
Qed.

(** A turn of the loop that raises: an index out of range, or a type
    without a radius in the table. *)
Lemma guess_bond_raises atoms radii threshold radius transparency c bonds
    i j e :
  guess_bond atoms radii threshold radius transparency c bonds (i, j)
  = Raise e →
  (e = IndexError
   ∧ ¬ (0 ≤ i < Z.of_nat (length atoms) ∧ 0 ≤ j < Z.of_nat (length atoms)))
  ∨ ∃ a t, (item atoms i = Ok a ∨ item atoms j = Ok a) ∧ type a = t
           ∧ e = KeyError (StrKey t) ∧ radii !! t = None.
Proof.
  unfold guess_bond, radius_of.
  destruct (item atoms i) as [atom_i|e1] eqn:Hi; simpl.
  2:{ intros [= <-]. left. split; [by eapply item_Raise|].
      intros [Hr _]. destruct (item_Ok atoms i Hr) as [? Hok]. congruence. }
  destruct (radii !! type atom_i) as [a|] eqn:Ha; simpl.
  2:{ intros [= <-]. right. exists atom_i, (type atom_i). auto. }
  destruct (item atoms j) as [atom_j|e2] eqn:Hj; simpl.
  2:{ intros [= <-]. left. split; [by eapply item_Raise|].
      intros [_ Hr]. destruct (item_Ok atoms j Hr) as [? Hok]. congruence. }
  destruct (radii !! type atom_j) as [b|] eqn:Hb; simpl.
  2:{ intros [= <-]. right. exists atom_j, (type atom_j). auto. }
  destruct (_ <? _)%float; [destruct c|]; done.
Qed.

Lemma guess_bonds_loop_total atoms radii threshold radius transparency c
    pairs :
  (∀ i j, (i, j) ∈ pairs →
          0 ≤ i < Z.of_nat (length atoms) ∧ 0 ≤ j < Z.of_nat (length atoms)) →
  (∀ i j a, (i, j) ∈ pairs → item atoms i = Ok a ∨ item atoms j = Ok a →
            is_Some (radii !! type a)) →
  ∀ acc, ∃ bonds,
    for_result pairs
      (guess_bond atoms radii threshold radius transparency c) acc
    = Ok bonds.
Proof.
  induction pairs as [|[i j] pairs IH]; intros Hrange Hradii acc;
    cbn [for_result]; [by eexists|].
  destruct (Hrange i j) as [Hi Hj]; [apply elem_of_cons; by left|].
  destruct (item_Ok atoms i Hi) as [atom_i Hai].
  destruct (item_Ok atoms j Hj) as [atom_j Haj].
  destruct (Hradii i j atom_i) as [a Ha]; [apply elem_of_cons; by left|auto|].
  destruct (Hradii i j atom_j) as [b Hb]; [apply elem_of_cons; by left|auto|].
  rewrite (guess_bond_total _ _ _ _ _ _ _ _ _ _ _ _ _ Hai Haj Ha Hb). simpl.
  apply IH.
  - intros i' j' Hin. apply Hrange, elem_of_cons. by right.
  - intros i' j' a' Hin. apply Hradii, elem_of_cons. by right.
Qed.

Section ReportedBonds.

Variable kdtree : Type.
Variable cKDTree : list point → Z → kdtree.
Variable query_pairs : kdtree → float → list (Z * Z).
Variable atom_data_RCov : gmap string float.

(** When [guess_bonds] returns a table, its bonds follow the order of the
    pairs of the spatial index; each is the bond of such a pair that passes
    the test [dr2 < thr_b2], the squared distance of its atoms against the
    square of the sum of their radii and the threshold as binary64 computes
    them, with the square root of the squared distance as its length and the
    display attributes of the call; and every pair that passes the test has
    its bond in the table.  The distance itself is not compared with the
    sum. *)
Theorem guess_bonds_reports_the_pairs_that_pass atoms_df covalent_radii threshold
    max_length radius transparency c bonds :
  guess_bonds cKDTree query_pairs atom_data_RCov atoms_df covalent_radii
              threshold max_length radius transparency c
  = Ok bonds →
  let atoms := atoms_df.*2 in
  let radii := default atom_data_RCov covalent_radii in
  let pairs := query_pairs (cKDTree (xyz <$> atoms) 16) max_length in
  sublist (bond_ends <$> bonds) pairs
  ∧ Forall (reported atoms radii threshold radius transparency c pairs) bonds
  ∧ ∀ i j atom_i atom_j ri rj,
      (i, j) ∈ pairs →
      item atoms i = Ok atom_i → item atoms j = Ok atom_j →
      radii !! type atom_i = Some ri → radii !! type atom_j = Some rj →
      below_threshold threshold ri rj atom_i atom_j = true →
      reported_bond radius transparency c i j atom_i atom_j ∈ bonds.
Proof.
  intros Hok atoms radii pairs. unfold guess_bonds in Hok.
  case_decide; [done|].
  assert (Hradii : match covalent_radii with
                   | Some r => r
                   | None => atom_data_RCov
                   end = radii) by (by destruct covalent_radii).
  rewrite Hradii in Hok.
  apply guess_bonds_loop in Hok as (new & -> & Hsub & Hall & Hcomplete).
  done.
Qed.

(** With the index in order and the pairs of the spatial index within the
    table, [guess_bonds] returns a table exactly when every atom of a pair
    has its type in the table of radii; otherwise it raises the [KeyError]
    of a type of such an atom that the table of radii lacks.  The type of an
    atom in no pair is never looked up. *)
Theorem guess_bonds_looks_up_the_paired_atoms atoms_df covalent_radii
    threshold max_length radius transparency c :
  let atoms := atoms_df.*2 in
  let radii := default atom_data_RCov covalent_radii in
  let pairs := query_pairs (cKDTree (xyz <$> atoms) 16) max_length in
  let outcome :=
    guess_bonds cKDTree query_pairs atom_data_RCov atoms_df covalent_radii
                threshold max_length radius transparency c in
  atoms_df.*1 = range (length atoms_df) →
  (∀ i j, (i, j) ∈ pairs →
          0 ≤ i < Z.of_nat (length atoms) ∧ 0 ≤ j < Z.of_nat (length atoms)) →
  ((∃ bonds, outcome = Ok bonds)
   ↔ ∀ i j a, (i, j) ∈ pairs → item atoms i = Ok a ∨ item atoms j = Ok a →
              is_Some (radii !! type a))
  ∧ ∀ e, outcome = Raise e →
         ∃ i j a, (i, j) ∈ pairs
                  ∧ (item atoms i = Ok a ∨ item atoms j = Ok a)
                  ∧ e = KeyError (StrKey (type a))
                  ∧ radii !! type a = None.
Proof.
  intros atoms radii pairs outcome Hindex Hrange. subst outcome.
  unfold guess_bonds. case_decide; [done|].
  assert (Hradii : match covalent_radii with
                   | Some r => r
                   | None => atom_data_RCov
                   end = radii) by (by destruct covalent_radii).
  rewrite Hradii. fold atoms. fold pairs.
  assert (Hraise : ∀ e,
    for_result pairs
      (guess_bond atoms radii threshold radius transparency c) [] = Raise e →
    ∃ i j a, (i, j) ∈ pairs ∧ (item atoms i = Ok a ∨ item atoms j = Ok a)
             ∧ e = KeyError (StrKey (type a)) ∧ radii !! type a = None).
  { intros e He. apply for_result_Raise in He as (acc & [i j] & Hin & He).
    apply guess_bond_raises in He as [[_ Hbad]|(a & t & Ha & <- & -> & Ht)].
    - destruct Hbad. by apply Hrange.
    - by exists i, j, a. }
  split; [split|done].
  - intros [bonds Hok] i j a Hin Ha.
    destruct (radii !! type a) as [r|] eqn:Hr; [by eexists|].
    exfalso. revert Hok Hin Ha Hr. clear. generalize (@nil bond).
    induction pairs as [|[i' j'] pairs' IH]; intros acc Hok Hin Ha Hr;
      [by apply elem_of_nil in Hin|].
    cbn [for_result] in Hok.
    destruct (guess_bond atoms radii threshold radius transparency c acc
                (i', j')) as [acc'|] eqn:Hstep; simpl in Hok; [|done].
    apply elem_of_cons in Hin as [[= -> ->]|Hin]; [|by eapply IH].
    apply guess_bond_Ok in Hstep
      as (atom_i & atom_j & ? & ? & Hi & Hj & Hri & Hrj & _).
    destruct Ha as [Ha|Ha]; congruence.
  - intros Hall. by apply guess_bonds_loop_total.
Qed.

End ReportedBonds.

Lemma four_atoms_pairs :
  brute_query_pairs (xyz <$> four_atoms.*2) 5
  = [(0, 1); (0, 2); (0, 3); (1, 2); (1, 3); (2, 3)].
Proof. by vm_compute. Qed.

Lemma guess_bonds_reports_witness :
  let bonds :=
    [ Bond 0 1 (PrimFloat.sqrt 2) 0.1 "grey" "grey" 1;
      Bond 2 3 (PrimFloat.sqrt 2) 0.1 "grey" "grey" 1 ] in
  let atoms := four_atoms.*2 in
  let pairs := brute_query_pairs (xyz <$> atoms) 5 in
  sublist (bond_ends <$> bonds) pairs
  ∧ Forall (reported atoms radius_X 0.1 0.1 1 None pairs) bonds
  ∧ ∀ i j atom_i atom_j ri rj,
      (i, j) ∈ pairs →
      item atoms i = Ok atom_i → item atoms j = Ok atom_j →
      radius_X !! type atom_i = Some ri → radius_X !! type atom_j = Some rj →
      below_threshold 0.1 ri rj atom_i atom_j = true →
      reported_bond 0.1 1 None i j atom_i atom_j ∈ bonds.
Proof.
  apply (guess_bonds_reports_the_pairs_that_pass (list point) brute_tree
           brute_query_pairs ∅ four_atoms (Some radius_X) 0.1 5 0.1 1 None).
  by vm_compute.
Defined.

Lemma guess_bonds_looks_up_witness :
  let atoms := four_atoms.*2 in
  let pairs := brute_query_pairs (xyz <$> atoms) 5 in
  let outcome :=
    guess_bonds brute_tree brute_query_pairs ∅ four_atoms None
                0.1 5 0.1 1 None in
  ((∃ bonds, outcome = Ok bonds)
   ↔ ∀ i j a, (i, j) ∈ pairs → item atoms i = Ok a ∨ item atoms j = Ok a →
              is_Some ((∅ : gmap string float) !! type a))
  ∧ ∀ e, outcome = Raise e →
         ∃ i j a, (i, j) ∈ pairs
                  ∧ (item atoms i = Ok a ∨ item atoms j = Ok a)
                  ∧ e = KeyError (StrKey (type a))
                  ∧ (∅ : gmap string float) !! type a = None.
Proof.
  apply (guess_bonds_looks_up_the_paired_atoms (list point) brute_tree
           brute_query_pairs ∅ four_atoms None 0.1 5 0.1 1 None).
  - by vm_compute.
  - intros i j. unfold brute_tree. rewrite four_atoms_pairs.
    rewrite !elem_of_cons, elem_of_nil.
    intros [H|[H|[H|[H|[H|[H|[]]]]]]]; injection H as -> ->; by vm_compute.
Defined.

(** Without a radius for the type [X] the first pair raises. *)
Example guess_bonds_unknown_type :
  guess_bonds brute_tree brute_query_pairs ∅ four_atoms None 0.1 5 0.1 1 None
  = Raise (KeyError (StrKey "X")).
Proof. by vm_compute. Qed.

(** ** The neighbour dictionary *)

Lemma select_sublist {A} (mask : list bool) (a : list A) :
  sublist (select mask a) a.
Proof.
  unfold select. revert a.
  induction mask as [|m mask IH]; intros [|x a]; simpl;
    try apply sublist_nil_l.
  destruct m; simpl; [by apply sublist_skip|by apply sublist_cons].
Qed.

Lemma record_neighbours_Ok nn_ids row nn_ids' :
  record_neighbours nn_ids row = Ok nn_ids' →
  ∃ d0 dists id0 ids,
    row = (d0 :: dists, id0 :: ids) ∧ (d0 =? 0)%float = true
    ∧ nn_ids'
      = <[id0 := select (neighbour_mask 0.01 <$> (d0 :: dists)) (id0 :: ids)]>
          nn_ids.
Proof.
  destruct row as [[|d0 dists] ids]; simpl; [done|].
  destruct (d0 =? 0)%float eqn:H0; [|done].
  destruct ids as [|id0 ids]; [done|]. intros [= <-].
  by exists d0, dists, id0, ids.
Qed.

Lemma neighbour_dictionary_from rows : ∀ acc nn_ids,
  for_result rows record_neighbours acc = Ok nn_ids →
  (∀ id, is_Some (nn_ids !! id)
         ↔ is_Some (acc !! id) ∨ ∃ row, row ∈ rows ∧ head row.2 = Some id)
  ∧ ∀ id nns,
      nn_ids !! id = Some nns →
      acc !! id = Some nns
      ∨ ∃ dists ids,
          (dists, ids) ∈ rows ∧ head ids = Some id
          ∧ nns = select (neighbour_mask 0.01 <$> dists) ids.
Proof.
  induction rows as [|row rows IH]; intros acc nn_ids; cbn [for_result].
  { intros [= <-]. split.
    - intros id. split; [by left|].
      intros [H|(? & H & _)]; [done|by apply elem_of_nil in H].
    - intros id nns H. by left. }
  destruct (record_neighbours acc row) as [acc'|] eqn:Hrow; simpl; [|done].
  intros Hloop. destruct (IH _ _ Hloop) as [Hdom Hget].
  apply record_neighbours_Ok in Hrow
    as (d0 & dists & id0 & ids & -> & H0 & ->).
  split.
  - intros id. rewrite Hdom. setoid_rewrite elem_of_cons.
    destruct (decide (id0 = id)) as [->|Hne].
    + rewrite lookup_insert_eq. split; [|intros _; left; by eexists].
      intros _. right. eexists. split; [by left|done].
    + rewrite lookup_insert_ne by done. split.
      * intros [H|(row & Hin & Hh)]; [by left|]. right. exists row. auto.
      * intros [H|(row & [->|Hin] & Hh)]; [by left| |].
        -- simpl in Hh. congruence.
        -- right. by exists row.
  - intros id nns Hid. setoid_rewrite elem_of_cons.
    destruct (Hget id nns Hid) as [Hacc|(dists' & ids' & Hin & Hh & ->)].
    + destruct (decide (id0 = id)) as [->|Hne].
      * rewrite lookup_insert_eq in Hacc. injection Hacc as <-.
        right. exists (d0 :: dists), (id :: ids). auto.
      * rewrite lookup_insert_ne in Hacc by done. by left.
    + right. exists dists', ids'. auto.
Qed.

(** The dictionary has a key for the first id of every row of the
    self-query and for nothing else; under a key it holds the ids of a row
    that starts with that key, restricted to the entries at a distance above
    [0.01] and below the sentinel, in the order of the row. *)
Theorem neighbour_dictionary_entries rows nn_ids :
  neighbour_dictionary rows = Ok nn_ids →
  (∀ id, is_Some (nn_ids !! id) ↔ ∃ row, row ∈ rows ∧ head row.2 = Some id)
  ∧ ∀ id nns,
      nn_ids !! id = Some nns →
      ∃ dists ids,
        (dists, ids) ∈ rows ∧ head ids = Some id
        ∧ nns = select (neighbour_mask 0.01 <$> dists) ids
        ∧ sublist nns ids.
Proof.
  intros Hok. apply neighbour_dictionary_from in Hok as [Hdom Hget]. split.
  - intros id. rewrite Hdom, lookup_empty. split; [|by right].
    intros [[? [=]]|H]; done.
  - intros id nns Hid.
    destruct (Hget id nns Hid) as [Hacc|(dists & ids & Hin & Hh & ->)];
      [by rewrite lookup_empty in Hacc|].
    exists dists, ids. repeat split; try done. apply select_sublist.
Qed.

(** The rows of the self-query of the tetrahedron, and its dictionary. *)
Definition tetrahedron_rows : list knn_row :=
  brute_query (xyz <$> tetrahedron) (xyz <$> tetrahedron) 25 4 1.

Definition tetrahedron_nn_ids : gmap Z (list Z) :=
  list_to_map [(0, [1; 2; 3]); (1, [0; 2; 3]); (2, [0; 1; 3]); (3, [0; 1; 2])].

Lemma neighbour_dictionary_entries_witness :
  (∀ id, is_Some (tetrahedron_nn_ids !! id)
         ↔ ∃ row, row ∈ tetrahedron_rows ∧ head row.2 = Some id)
  ∧ ∀ id nns,
      tetrahedron_nn_ids !! id = Some nns →
      ∃ dists ids,
        (dists, ids) ∈ tetrahedron_rows ∧ head ids = Some id
        ∧ nns = select (neighbour_mask 0.01 <$> dists) ids
        ∧ sublist nns ids.
Proof.
  apply (neighbour_dictionary_entries tetrahedron_rows tetrahedron_nn_ids).
  by vm_compute.
Defined.

(** ** The histogram of all signatures *)

Lemma count_Counter_from keys key : ∀ counter,
  count (fold_left (λ counter key,
                      <[key := default 0 (counter !! key) + 1]> counter)
                   keys counter) key
  = count counter key + Z.of_nat (length (filter (λ k, k = key) keys)).
Proof.
  induction keys as [|k keys IH]; intros counter; simpl; [lia|].
  rewrite IH. unfold count at 1. rewrite filter_cons.
  destruct (decide (k = key)) as [->|Hne].
  - rewrite lookup_insert_eq. simpl. unfold count. lia.
  - rewrite lookup_insert_ne by done. unfold count. lia.
Qed.

(** [Counter(keys)[key]] is the number of times [key] is in [keys]. *)
Lemma count_Counter keys key :
  count (Counter keys) key = Z.of_nat (length (filter (λ k, k = key) keys)).
Proof. unfold Counter. rewrite count_Counter_from. by unfold count. Qed.

(** Adding two counters adds the counts, and keeps nothing below zero. *)
Lemma count_counter_add c1 c2 key :
  count (counter_add c1 c2) key = Z.max 0 (count c1 key + count c2 key).
Proof.
  unfold count, counter_add. rewrite lookup_merge.
  destruct (c1 !! key), (c2 !! key); simpl; try case_decide; simpl; lia.
Qed.

Lemma count_sum_counters_from ls key : ∀ acc,
  0 ≤ count acc key →
  count (fold_left counter_add (Counter <$> ls) acc) key
  = count acc key + Z.of_nat (length (filter (λ k, k = key) (mjoin ls))).
Proof.
  induction ls as [|l ls IH]; intros acc Hacc; simpl; [lia|].
  rewrite IH; rewrite count_counter_add, count_Counter; [|lia].
  rewrite filter_app, length_app. lia.
Qed.

(** The sum of counters of lists counts a key as many times as it occurs
    in all the lists. *)
Lemma count_sum_counters (jkls : list (list string)) key :
  count (sum_counters (Counter <$> jkls)) key
  = Z.of_nat (length (filter (λ k, k = key) (mjoin jkls))).
Proof.
  unfold sum_counters. rewrite count_sum_counters_from; [done|].
  by unfold count.
Qed.

(** ** The tables of the analysis *)

Lemma set_column_Ok {A B} (df : list A) (values : list B) df' :
  set_column df values = Ok df' → df'.*1 = df ∧ df'.*2 = values.
Proof.
  unfold set_column. case_decide as Hlen; [|done]. intros [= <-].
  split; [apply fst_zip|apply snd_zip]; lia.
Qed.

(** What holds before a loop and is kept by its turns holds after it. *)
Lemma for_result_invariant {A S} (P : S → Prop) (l : list A)
    (body : S → A → result S) :
  (∀ s a s', P s → body s a = Ok s' → P s') →
  ∀ s s', P s → for_result l body s = Ok s' → P s'.
Proof.
  intros Hbody. induction l as [|a l IH]; intros s s' Hs; simpl.
  - by intros [= <-].
  - destruct (body s a) as [s1|] eqn:Ha; simpl; [|done].
    apply IH. by eapply Hbody.
Qed.

(** The table has the atoms it was given, each with the counter of a list
    of signatures. *)
Lemma cna_table_rows atoms_df rows df :
  cna_table atoms_df rows = Ok df →
  df.*1 = atoms_df ∧ ∃ jkls, df.*2 = Counter <$> jkls.
Proof.
  unfold cna_table. cbv zeta.
  destruct (neighbour_dictionary rows) as [nn_ids|]; simpl; [|done].
  match goal with |- context [for_result ?l ?body ?s] =>
    destruct (for_result l body s) as [jkls|] eqn:Hloop end; simpl; [|done].
  intros [Hdf Hcna]%set_column_Ok. split; [done|]. rewrite Hcna.
  assert (Hjkls : map_Forall (λ _ counter, ∃ l, counter = Counter l) jkls).
  { revert Hloop. apply for_result_invariant; [|apply map_Forall_empty].
    intros acc entry acc' Hacc. case_decide; [by intros [= <-]|].
    destruct (signatures nn_ids entry.2) as [l|]; simpl; [|done].
    intros [= <-]. apply map_Forall_insert_2; [by eexists|done]. }
  unfold values_by_key. generalize (sorted_keys jkls).
  induction l as [|key keys [ls IH]]; [by exists []|]. cbn [omap list_omap].
  destruct (jkls !! key) as [counter|] eqn:Hkey; [|by exists ls].
  destruct (Hjkls _ _ Hkey) as [l ->]. exists (l :: ls).
  by rewrite fmap_cons, <- IH.
Qed.

Lemma spec_first_match_labels matches counter :
  spec_first_match (spec_rules matches counter)
  ∈ ["HCP"; "FCC"; "BCC"; "Diamond"; "Icosahedral"; "Other"].
Proof.
  unfold spec_rules. cbv zeta. simpl.
  repeat match goal with
         | |- context [if ?b then _ else _] => destruct b
         end; rewrite !elem_of_cons; auto 10.
Qed.

(** The loop over the counters gives every counter its label. *)
Lemma categories_loop accuracy cnas : ∀ atype,
  for_result cnas
    (λ atype counter,
       label ← category counter accuracy; Ok (atype ++ [label])) atype
  = Ok (atype
        ++ ((λ counter,
               spec_first_match
                 (spec_rules (rounded_matches accuracy) counter))
              <$> cnas)).
Proof.
  induction cnas as [|counter cnas IH]; intros atype; simpl.
  - by rewrite app_nil_r.
  - rewrite category_rules. simpl. by rewrite IH, <- app_assoc.
Qed.

Lemma sum_of_counts cnas key :
  (∃ jkls, cnas = Counter <$> jkls) →
  count (sum_counters cnas) key
  = foldr Z.add 0 ((λ counter, count counter key) <$> cnas).
Proof.
  intros [jkls ->]. rewrite count_sum_counters.
  induction jkls as [|l jkls IH]; [done|].
  rewrite !fmap_cons, mjoin_cons, filter_app, length_app, Nat2Z.inj_add.
  cbn [foldr]. by rewrite <- IH, count_Counter.
Qed.

Section Tables.

Variable kdtree : Type.
Variable cKDTree : list point → Z → kdtree.
Variable query : kdtree → list point → Z → float → Z → list knn_row.
Variable periodic_images : bool → list atom → lattice_meta → list atom.

Lemma cna_categories_returns atoms_df accuracy upper_bound max_neighbours
    repeat_meta leafsize ipython_progress :
  returns
    (cna_categories cKDTree query periodic_images atoms_df accuracy
       upper_bound max_neighbours repeat_meta leafsize ipython_progress)
    (df ← self_query kdtree cKDTree query periodic_images atoms_df
            upper_bound max_neighbours repeat_meta leafsize
          ≫= cna_table atoms_df;
     Ok (zip df.*1
           ((λ counter,
               spec_first_match
                 (spec_rules (rounded_matches accuracy) counter))
              <$> df.*2))).
Proof.
  unfold cna_categories.
  apply returns_bind; [apply common_neighbour_analysis_returns|].
  intros df _. cbv zeta. rewrite categories_loop. intros out. reflexivity.
Qed.

Lemma cna_sum_returns atoms_df upper_bound max_neighbours repeat_meta
    leafsize ipython_progress :
  returns
    (cna_sum cKDTree query periodic_images atoms_df upper_bound
       max_neighbours repeat_meta leafsize ipython_progress)
    (df ← self_query kdtree cKDTree query periodic_images atoms_df
            upper_bound max_neighbours repeat_meta leafsize
          ≫= cna_table atoms_df;
     Ok (sum_counters df.*2)).
Proof.
  unfold cna_sum.
  apply returns_bind; [apply common_neighbour_analysis_returns|].
  intros df _. apply returns_ret.
Qed.

(** [cna_sum] raises what [common_neighbour_analysis] raises, and otherwise
    returns a counter in which the count of every signature is the sum of
    its counts in the counters of the atoms of the table. *)
Theorem cna_sum_adds_the_counts_of_the_atoms atoms_df upper_bound
    max_neighbours repeat_meta leafsize ipython_progress out :
  match (common_neighbour_analysis cKDTree query periodic_images atoms_df
           upper_bound max_neighbours repeat_meta leafsize ipython_progress
           out).1 with
  | Raise e =>
      (cna_sum cKDTree query periodic_images atoms_df upper_bound
         max_neighbours repeat_meta leafsize ipython_progress out).1
      = Raise e
  | Ok cna =>
      ∃ total,
        (cna_sum cKDTree query periodic_images atoms_df upper_bound
           max_neighbours repeat_meta leafsize ipython_progress out).1
        = Ok total
        ∧ ∀ key,
            count total key
            = foldr Z.add 0 ((λ row, count row.2 key) <$> cna)
  end.
Proof.
  rewrite cna_sum_returns, common_neighbour_analysis_returns.
  destruct (self_query _ _ _ _ _ _ _ _ _ ≫= cna_table atoms_df)
    as [cna|e] eqn:Hcna; simpl; [|done].
  eexists. split; [done|]. intros key.
  assert (Hrows : ∃ jkls, cna.*2 = Counter <$> jkls).
  { destruct (self_query _ _ _ _ _ _ _ _ _) as [rows|]; simpl in Hcna;
      [|done]. by apply cna_table_rows in Hcna as [_ ?]. }
  rewrite (sum_of_counts _ key Hrows). by rewrite <- list_fmap_compose.
Qed.

(** [cna_categories] raises what [common_neighbour_analysis] raises, and
    otherwise returns the atoms of the table it was given, in their order,
    each with the label that the classifier returns for its counter, one of
    the six labels. *)
Theorem cna_categories_labels_every_atom atoms_df accuracy upper_bound
    max_neighbours repeat_meta leafsize ipython_progress out :
  match (common_neighbour_analysis cKDTree query periodic_images atoms_df
           upper_bound max_neighbours repeat_meta leafsize ipython_progress
           out).1 with
  | Raise e =>
      (cna_categories cKDTree query periodic_images atoms_df accuracy
         upper_bound max_neighbours repeat_meta leafsize ipython_progress
         out).1 = Raise e
  | Ok cna =>
      ∃ df,
        (cna_categories cKDTree query periodic_images atoms_df accuracy
           upper_bound max_neighbours repeat_meta leafsize ipython_progress
           out).1 = Ok df
        ∧ cna.*1 = atoms_df ∧ df.*1 = atoms_df
        ∧ Forall2 (λ counter label, category counter accuracy = Ok label)
                  cna.*2 df.*2
        ∧ Forall (.∈ ["HCP"; "FCC"; "BCC"; "Diamond"; "Icosahedral"; "Other"])
                 df.*2
  end.
Proof.
  rewrite cna_categories_returns, common_neighbour_analysis_returns.
  destruct (self_query _ _ _ _ _ _ _ _ _ ≫= cna_table atoms_df)
    as [cna|e] eqn:Hcna; simpl; [|done].
  eexists. split; [done|].
  assert (Hrows : cna.*1 = atoms_df).
  { destruct (self_query _ _ _ _ _ _ _ _ _) as [rows|]; simpl in Hcna;
      [|done]. by apply cna_table_rows in Hcna as [? _]. }
  split; [done|].
  rewrite fst_zip, snd_zip by (rewrite !length_fmap; lia).
  split; [done|]. split.
  - apply Forall2_fmap_r, Forall_Forall2_diag, Forall_forall.
    intros counter _. apply category_rules.
  - apply Forall_fmap, Forall_forall. intros counter _.
    apply spec_first_match_labels.
Qed.

End Tables.

(** ** The vacancies *)

Lemma NoDup_range n : NoDup (range n).
Proof.
  unfold range. apply NoDup_fmap; [|apply NoDup_seq].
  intros a b. apply Nat2Z.inj.
Qed.

Lemma NoDup_filter_index {A} (f : Z * A → bool) (df : list (Z * A)) :
  NoDup df.*1 → NoDup (List.filter f df).*1.
Proof.
  induction df as [|row df IH]; simpl; [done|].
  intros [Hrow Hnd]%NoDup_cons. destruct (f row); simpl; [|by apply IH].
  apply NoDup_cons. split; [|by apply IH].
  intros (row' & Heq & Hin%list_elem_of_In%filter_In)%list_elem_of_fmap.
  apply Hrow, list_elem_of_fmap. exists row'. split; [done|].
  apply list_elem_of_In. tauto.
Qed.

Lemma filter_all {A} (f : A → bool) (l : list A) :
  (∀ a, f a = true) → List.filter f l = l.
Proof.
  intros Hf. induction l as [|a l IH]; simpl; [done|]. by rewrite Hf, IH.
Qed.

Lemma lift_Ok_bind {A B} (a : A) (f : A → io B) : lift (Ok a) ≫= f = f a.
Proof. reflexivity. Qed.

Lemma omap_pointwise {A B} (f g : A → option B) (l : list A) :
  (∀ a, f a = g a) → omap f l = omap g l.
Proof.
  intros Hfg. induction l as [|a l IH]; [done|].
  cbn [omap list_omap]. by rewrite Hfg, IH.
Qed.

(** The sites of the points of the grid that have the sentinel as their
    distance. *)
Lemma vacant_sites (site_of : point → site) grid dists :
  (∀ p, site_xyz (site_of p) = p) →
  site_xyz
    <$> omap (λ '(p, dist), if isinf dist then Some (site_of p) else None)
             (zip grid dists)
  = (List.filter (λ pd : point * float, isinf pd.2) (zip grid dists)).*1.
Proof.
  intros Hsite. induction (zip grid dists) as [|[p dist] l IH]; [done|].
  cbn [omap list_omap List.filter snd]. destruct (isinf dist); [|done].
  by rewrite !fmap_cons, IH, Hsite.
Qed.

Section Vacancies.

Variable kdtree : Type.
Variable cKDTree : list point → Z → kdtree.
Variable query : kdtree → list point → Z → float → Z → list knn_row.
Variable query_pairs : kdtree → float → list (Z * Z).
Variable periodic_images : bool → list atom → lattice_meta → list atom.
Variable series_min series_max : list float → float.
Variable mgrid : float * float → float * float → float * float → float
                 → result (list point).

(** The grid of candidate sites, as [vacancy_identification] asks numpy
    for it. *)
Definition vacancy_grid (atoms_df : list atom) (res : float)
    : result (list point) :=
  mgrid (series_min (x <$> atoms_df), series_max (x <$> atoms_df))
        (series_min (y <$> atoms_df), series_max (y <$> atoms_df))
        (series_min (z <$> atoms_df), series_max (z <$> atoms_df)) res.

(** [vacancy_identification] raises what the grid raises, and [TypeError]
    when [repeat_meta] is given.  Otherwise it returns a table.  Without
    [remove_dups] the rows are the points of the grid for which the query
    on the atoms returns the sentinel as distance, all of them and in the
    order of the grid, labelled [0, 1, ...], with the type name and the
    display attributes of the call.  With [remove_dups] the table is that
    one less the rows whose label is the first of a pair that the pair query
    on these sites reports; the other rows keep their labels. *)
Theorem vacancies_are_the_vacant_grid_points atoms_df res nn_dist color
    transparency radius type_name leafsize n_jobs ipython_progress out :
  let outcome repeat_meta remove_dups :=
    (vacancy_identification cKDTree query query_pairs periodic_images
       series_min series_max mgrid atoms_df res nn_dist repeat_meta
       remove_dups color transparency radius type_name leafsize n_jobs
       ipython_progress out).1 in
  match vacancy_grid atoms_df res with
  | Raise e => ∀ repeat_meta remove_dups, outcome repeat_meta remove_dups = Raise e
  | Ok grid =>
      (∀ meta remove_dups, outcome (Some meta) remove_dups = Raise TypeError)
      ∧ ∃ sites kept,
          outcome None false = Ok sites
          ∧ outcome None true = Ok kept
          ∧ sites.*1 = range (length sites)
          ∧ site_xyz <$> sites.*2
            = (List.filter
                 (λ pd : point * float, isinf pd.2)
                 (zip grid
                    (mjoin (query (cKDTree (xyz <$> atoms_df) leafsize)
                                  grid 1 nn_dist n_jobs).*1))).*1
          ∧ Forall
              (λ s, site_type s = type_name ∧ site_radius s = radius
                    ∧ site_color s = color
                    ∧ site_transparency s = transparency)
              sites.*2
          ∧ kept
            = List.filter
                (λ row : Z * site,
                   bool_decide
                     (row.1 ∉ (query_pairs
                                 (cKDTree (site_xyz <$> sites.*2) 16)
                                 nn_dist).*1))
                sites
          ∧ NoDup kept.*1
  end.
Proof.
  intros outcome. subst outcome. unfold vacancy_identification, vacancy_grid.
  cbv zeta. destruct (mgrid _ _ _ _) as [grid|e]; [|done].
  split; [done|]. rewrite !lift_Ok_bind.
  set (dists := mjoin _).
  set (site_of := λ p : point,
         Site type_name p.1.1 p.1.2 p.2 radius color transparency).
  set (vac_list :=
         omap (λ '(p, dist), if isinf dist then Some (site_of p) else None)
              (zip grid dists)).
  assert (Hvac :
    omap (λ '(x, y, z, dist),
            if isinf dist
            then Some (Site type_name x y z radius color transparency)
            else None) (zip grid dists) = vac_list).
  { subst vac_list. apply omap_pointwise. by intros [[[px py] pz] d]. }
  set (df := zip (range (length vac_list)) vac_list).
  assert (Hlen : length (range (length vac_list)) = length vac_list)
    by (unfold range; by rewrite length_fmap, length_seq).
  assert (Hlabels : df.*1 = range (length vac_list))
    by (subst df; apply fst_zip; lia).
  assert (Hsites : df.*2 = vac_list) by (subst df; apply snd_zip; lia).
  set (pairs := query_pairs (cKDTree (site_xyz <$> df.*2) 16) nn_dist).
  exists df,
    (List.filter (λ row : Z * site, bool_decide (row.1 ∉ pairs.*1)) df).
  split; [|split; [|split; [|split; [|split; [|split]]]]].
  - rewrite Hvac. fold df. by destruct ipython_progress.
  - rewrite Hvac. fold df. fold pairs.
    assert (Hdrop :
      (if true && bool_decide (0 < length df)%nat
       then if bool_decide (0 < length pairs)%nat
            then drop_rows pairs.*1 df else df
       else df)
      = List.filter (λ row : Z * site, bool_decide (row.1 ∉ pairs.*1)) df).
    { simpl. case_bool_decide as Hdf.
      - case_bool_decide as Hpairs; [done|].
        destruct pairs as [|pair pairs']; [|simpl in Hpairs; lia].
        symmetry. apply filter_all. intros row. apply bool_decide_eq_true.
        apply not_elem_of_nil.
      - destruct df; [done|simpl in Hdf; lia]. }
    rewrite Hdrop. by destruct ipython_progress.
  - rewrite Hlabels. subst df. by rewrite length_zip, Hlen, Nat.min_id.
  - rewrite Hsites. subst vac_list. apply vacant_sites. by intros [[px py] pz].
  - rewrite Hsites. apply Forall_forall. intros s Hs. subst vac_list.
    apply list_elem_of_omap in Hs as ([p d] & _ & Hs).
    destruct (isinf d); [|done]. by injection Hs as <-.
  - done.
  - apply NoDup_filter_index. rewrite Hlabels. apply NoDup_range.
Qed.

End Vacancies.

(** Three atoms at corners of a square of side 3: of the two corners of
    their box, the one without an atom is further than [2] from all of them
    and is the vacancy. *)
Example vacancy_empty_corner :
  (vacancy_identification brute_tree brute_query brute_query_pairs no_images
     float_min float_max corners
     [Atom 0 0 0 "X" "red"; Atom 3 0 0 "X" "red"; Atom 0 3 0 "X" "red"]
     0.2 2 None true "red" 1 1 "Vac" 100 1 false []).1
  = Ok [(0, Site "Vac" 3 3 0 1 "red" 1)].
Proof. by vm_compute. Qed.

(** ** The tables of [Atom_Manipulation] *)

Section AtomManipulation.
Import Atom_Manipulation.

Lemma filter_filter {A} (f g : A → bool) (l : list A) :
  List.filter g (List.filter f l) = List.filter (λ a, f a && g a) l.
Proof.
  induction l as [|a l IH]; simpl; [done|].
  destruct (f a); simpl; [destruct (g a)|]; by rewrite IH.
Qed.

(** [undo_last] takes back the last replacement of the table, by
    [revert_to_original], [filter_variables], a [repeat_cell] that returns
    or a slice with one bound, and only the last one: a second [undo_last]
    changes nothing.  The original table is kept throughout. *)
Theorem undo_last_takes_back_one_step (self : t) :
  df (undo_last (revert_to_original self)) = df self
  ∧ (∀ V (eq_dec : EqDecision V) (vals : values V) vtype,
       df (undo_last (filter_variables vals vtype self)) = df self
       ∧ _original_atom_df (filter_variables vals vtype self)
         = _original_atom_df self)
  ∧ (∀ vectors repetitions repeated,
       repeat_cell self vectors repetitions = Ok repeated →
       df (undo_last repeated) = df self
       ∧ _original_atom_df repeated = _original_atom_df self)
  ∧ (∀ coordinate bound,
       df (undo_last (slice coordinate (Some bound) None self)) = df self
       ∧ df (undo_last (slice coordinate None (Some bound) self)) = df self)
  ∧ undo_last (undo_last self) = undo_last self
  ∧ df (revert_to_original (undo_last self)) = _original_atom_df self.
Proof.
  split; [done|]. split.
  { intros V eq_dec vals vtype. by destruct vals. }
  split.
  { intros vectors repetitions repeated. rewrite repeat_cell_offsets.
    destruct (for_result _ _ _) as [[|copy dfs]|]; simpl; [done| |done].
    by intros [= <-]. }
  split.
  { intros coordinate bound. done. }
  unfold undo_last. destruct (_atom_df_old self) eqn:Hold; simpl.
  - done.
  - by rewrite Hold.
Qed.

(** A slice with both bounds keeps the rows between the bounds, in two
    replacements of the table: [undo_last] then gives the table cut at the
    lower bound only, not the table before the slice.  A slice without a
    bound changes nothing. *)
Theorem slice_with_both_bounds coordinate minval maxval (self : t) :
  df (slice coordinate (Some minval) (Some maxval) self)
  = List.filter (λ a, (minval <=? coordinate a)%float
                      && (coordinate a <=? maxval)%float) (df self)
  ∧ df (undo_last (slice coordinate (Some minval) (Some maxval) self))
    = List.filter (λ a, (minval <=? coordinate a)%float) (df self)
  ∧ slice coordinate None None self = self.
Proof.
  split; [|done]. unfold slice, df, set_atom_df, _atom_df. simpl.
  apply filter_filter.
Qed.

(** [filter_variables] keeps the rows whose cell is one of the values, in
    their order, and all of them; filtering again with the same values
    changes no row; one value filters as the list of that value; no value
    leaves an empty table. *)
Theorem filter_variables_keeps_the_values {V} `{EqDecision V}
    (vs : list V) (vtype : column V) (self : t) :
  let kept := df (filter_variables (Many vs) vtype self) in
  sublist kept (df self)
  ∧ (∀ a, a ∈ kept ↔ a ∈ df self ∧ cell vtype a ∈ vs)
  ∧ df (filter_variables (Many vs) vtype
          (filter_variables (Many vs) vtype self)) = kept
  ∧ (∀ v, df (filter_variables (Single v) vtype self)
          = df (filter_variables (Many [v]) vtype self))
  ∧ df (filter_variables (Many []) vtype self) = [].
Proof.
  intros kept. subst kept. unfold filter_variables, df, set_atom_df, _atom_df.
  simpl. generalize (_atom_df_new self) as l. intros l.
  split; [|split; [|split; [|split]]].
  - induction l as [|a l IH]; simpl; [done|].
    case_bool_decide; [by apply sublist_skip|by apply sublist_cons].
  - intros a. rewrite list_elem_of_In, filter_In, <- list_elem_of_In.
    by rewrite bool_decide_eq_true.
  - rewrite filter_filter.
    induction l as [|a l IH]; simpl; [done|].
    destruct (bool_decide (cell vtype a ∈ vs)); simpl; by rewrite IH.
  - done.
  - by induction l.
Qed.

(** [change_variables] replaces the types through the dictionary, all at
    once, and leaves the rows otherwise as they are.  It changes the table
    in place: on a new object [undo_last] does not take it back, and after
    another operation [undo_last] goes back beyond both.  The original table
    is not touched. *)
Theorem change_variables_is_in_place (map_dict : gmap string string)
    (self : t) :
  let changed := change_variables map_dict type_column self in
  type <$> df changed = (λ t, default t (map_dict !! t)) <$> (type <$> df self)
  ∧ xs <$> df changed = xs <$> df self
  ∧ ys <$> df changed = ys <$> df self
  ∧ zs <$> df changed = zs <$> df self
  ∧ (∀ atom_df,
       df (undo_last (change_variables map_dict type_column (init atom_df)))
       = df (change_variables map_dict type_column (init atom_df)))
  ∧ (∀ (vals : values string),
       df (undo_last (change_variables map_dict type_column
                        (filter_variables vals type_column self)))
       = df self)
  ∧ df (revert_to_original changed) = _original_atom_df self.
Proof.
  intros changed. subst changed. unfold change_variables, df. simpl.
  rewrite <- !list_fmap_compose. repeat split; try done.
Qed.

Lemma length_bind_blocks {A B} (l : list A) (g : A → list B) (c : nat) :
  (∀ a, a ∈ l → length (g a) = c) →
  length (l ≫= g) = (length l * c)%nat.
Proof.
  induction l as [|a l IH]; intros Hg; [done|].
  rewrite bind_cons, length_app, IH, Hg; simpl.
  - done.
  - apply elem_of_cons; auto.
  - intros b Hb. apply Hg, elem_of_cons; auto.
Qed.

Lemma length_inclusive_range (lo hi : Z) :
  length (inclusive_range (lo, hi)) = Z.to_nat (hi - lo + 1).
Proof. unfold inclusive_range. rewrite length_seqZ. simpl. f_equal. lia. Qed.

Lemma elem_of_inclusive_range (lo hi i : Z) :
  i ∈ inclusive_range (lo, hi) ↔ lo ≤ i ≤ hi.
Proof. unfold inclusive_range. rewrite elem_of_seqZ. simpl. lia. Qed.

Lemma length_offsets i0 i1 j0 j1 k0 k1 :
  length (offsets ((i0, i1), (j0, j1), (k0, k1)))
  = (Z.to_nat (i1 - i0 + 1) * (Z.to_nat (j1 - j0 + 1)
                               * Z.to_nat (k1 - k0 + 1)))%nat.
Proof.
  unfold offsets. cbn [fst snd].
  rewrite <- !length_inclusive_range.
  apply length_bind_blocks; intros i _.
  apply length_bind_blocks; intros j _.
  rewrite (length_bind_blocks _ _ 1); [lia|done].
Qed.

Lemma elem_of_offsets i0 i1 j0 j1 k0 k1 i j k :
  (i, j, k) ∈ offsets ((i0, i1), (j0, j1), (k0, k1))
  ↔ i0 ≤ i ≤ i1 ∧ j0 ≤ j ≤ j1 ∧ k0 ≤ k ≤ k1.
Proof.
  unfold offsets. cbn [fst snd].
  rewrite list_elem_of_bind. setoid_rewrite list_elem_of_bind.
  setoid_rewrite list_elem_of_bind.
  setoid_rewrite list_elem_of_singleton.
  setoid_rewrite elem_of_inclusive_range. split.
  - intros (i' & (j' & (k' & [= -> -> ->] & Hk) & Hj) & Hi). done.
  - intros (Hi & Hj & Hk). exists i. split; [|done].
    exists j. split; [|done]. by exists k.
Qed.

Lemma types_of_copies self vectors fs :
  type <$> mjoin (copy_of self vectors <$> fs)
  = mjoin (replicate (length fs) (type <$> df self)).
Proof.
  induction fs as [|f fs IH]; [done|].
  rewrite fmap_cons, mjoin_cons, fmap_app, IH. cbn [length replicate].
  rewrite mjoin_cons. f_equal. unfold copy_of.
  rewrite <- list_fmap_compose. apply list_fmap_ext. intros n a _.
  unfold translate. simpl.
  by destruct vectors as [[[[ax ay] az] [[bx by_] bz]] [[cx cy] cz]].
Qed.

(** [repeat_cell] raises the [ValueError] of [pd.concat] exactly when one
    of the three ranges is empty, and otherwise only an [OverflowError], of a
    repetition that has no float.  When it returns, the table holds one copy
    of the rows for each triple [(i, j, k)] of the ranges, translated by the
    floats of the triple: their number is the number of triples times the
    number of atoms, the types are those of the table once per copy, the
    first copy is the one of the three lower bounds, and the rows are those
    of the copies and no other. *)
Theorem repeat_cell_copies (self : t) (vectors : point * point * point)
    (i0 i1 j0 j1 k0 k1 : Z) :
  let outcome := repeat_cell self vectors ((i0, i1), (j0, j1), (k0, k1)) in
  let copies :=
    (Z.to_nat (i1 - i0 + 1) * (Z.to_nat (j1 - j0 + 1)
                               * Z.to_nat (k1 - k0 + 1)))%nat in
  (outcome = Raise (ValueError "No objects to concatenate")
   ↔ i1 < i0 ∨ j1 < j0 ∨ k1 < k0)
  ∧ (∀ e, outcome = Raise e →
          e = ValueError "No objects to concatenate" ∨ e = OverflowError)
  ∧ ∀ repeated,
      outcome = Ok repeated →
      length (df repeated) = (copies * length (df self))%nat
      ∧ type <$> df repeated = mjoin (replicate copies (type <$> df self))
      ∧ (∃ f, floats_of (i0, j0, k0) = Ok f
              ∧ copy_of self vectors f `prefix_of` df repeated)
      ∧ ∀ a', a' ∈ df repeated
              ↔ ∃ i j k f a,
                  i0 ≤ i ≤ i1 ∧ j0 ≤ j ≤ j1 ∧ k0 ≤ k ≤ k1
                  ∧ floats_of (i, j, k) = Ok f ∧ a ∈ df self
                  ∧ a' = translate vectors f.1.1 f.1.2 f.2 a.
Proof.
  intros outcome copies. subst outcome copies.
  rewrite repeat_cell_offsets, <- length_offsets.
  set (offs := offsets _).
  assert (Hempty : offs = [] ↔ i1 < i0 ∨ j1 < j0 ∨ k1 < k0).
  { rewrite <- length_zero_iff_nil. subst offs. rewrite length_offsets. nia. }
  assert (Hfirst : ∀ ijk rest, offs = ijk :: rest → ijk = (i0, j0, k0)).
  { intros ijk rest Hoffs.
    assert (Hin : ijk ∈ offs) by (rewrite Hoffs; apply elem_of_cons; by left).
    destruct ijk as [[i j] k]. apply elem_of_offsets in Hin.
    revert Hoffs. subst offs. unfold offsets, inclusive_range. cbn [fst snd].
    rewrite (seqZ_cons i0), (seqZ_cons j0), (seqZ_cons k0) by lia.
    rewrite !bind_cons. cbn [app]. by intros [= -> -> ->]. }
  destruct (for_result offs _ []) as [dfs|e] eqn:Hloop; cbn [mbind result_bind].
  - apply copies_Ok in Hloop as (fs & Hfs & ->). cbn [app].
    assert (Hlen : length offs = length fs) by (by eapply Forall2_length).
    destruct (decide (fs = [])) as [->|Hne].
    { apply Forall2_nil_inv_r in Hfs. simpl.
      split; [by rewrite <- Hempty|]. split; [intros e [= <-]; by left|done]. }
    rewrite (concat_Ok (copy_of self vectors <$> fs))
      by (by destruct fs). cbn [mbind result_bind].
    split.
    { split; [done|]. rewrite <- Hempty. intros Hoffs. rewrite Hoffs in Hlen.
      by destruct fs. }
    split; [done|]. intros repeated [= <-]. rewrite df_set_atom_df.
    split; [|split; [|split]].
    + rewrite (length_mjoin_blocks _ (length (df self)))
        by (intros; apply length_copy_of).
      by rewrite Hlen.
    + by rewrite types_of_copies, Hlen.
    + destruct fs as [|f fs]; [done|].
      apply Forall2_cons_inv_r in Hfs as (ijk & rest & Hf & _ & Hoffs).
      rewrite (Hfirst _ _ Hoffs) in Hf. exists f. split; [done|].
      rewrite fmap_cons, mjoin_cons. by apply prefix_app_r.
    + intros a'. rewrite list_elem_of_join. split.
      * intros (block & Ha' & (f & -> & Hf)%list_elem_of_fmap).
        apply list_elem_of_fmap in Ha' as (a & -> & Ha).
        apply list_elem_of_lookup in Hf as [n Hn].
        destruct (Forall2_lookup_r _ _ _ _ _ Hfs Hn)
          as ([[i j] k] & Hijk & Hfloats).
        apply list_elem_of_lookup_2 in Hijk. apply elem_of_offsets in Hijk.
        exists i, j, k, f, a. tauto.
      * intros (i & j & k & f & a & Hi & Hj & Hk & Hfloats & Ha & ->).
        assert (Hin : (i, j, k) ∈ offs) by (by apply elem_of_offsets).
        apply list_elem_of_lookup in Hin as [n Hn].
        destruct (Forall2_lookup_l _ _ _ _ _ Hfs Hn) as (f' & Hf' & Hfloats').
        rewrite Hfloats in Hfloats'. injection Hfloats' as <-.
        exists (copy_of self vectors f). split.
        -- unfold copy_of. by apply list_elem_of_fmap_2.
        -- apply list_elem_of_fmap_2. by eapply list_elem_of_lookup_2.
  - pose proof (copies_Raise _ _ _ _ _ Hloop) as ->.
    split; [|split; [intros e [= <-]; by right|done]].
    split; [done|]. rewrite <- Hempty. intros Hoffs. rewrite Hoffs in Hloop.
    done.
Qed.

(** Two atoms of a cubic cell, repeated with the default repetitions: the
    cell itself and one more along each vector. *)
Definition two_atoms : list atom :=
  [Atom 0 0 0 "Fe"; Atom 0.5 0.5 0.5 "Fe"]%float.

Example repeat_cell_default_repetitions :
  df <$> repeat_cell (init two_atoms) cubic_cell ((0, 1), (0, 1), (0, 1))
  = Ok (mjoin (copy_of (init two_atoms) cubic_cell
                 <$> (i ← [0; 1]; j ← [0; 1]; k ← [0; 1]; [(i, j, k)])%float))
  ∧ repeat_cell (init two_atoms) cubic_cell ((0, -1), (0, 1), (0, 1))
    = Raise (ValueError "No objects to concatenate")
  ∧ repeat_cell (init two_atoms) cubic_cell ((0, 1), (0, 1), (2 ^ 1024, 2 ^ 1024))
    = Raise OverflowError.
Proof. by vm_compute. Qed.

End AtomManipulation.
